(** * Equivalent stressed volume of the notched specimen (specimen_weibull.ipynb)

    Shallow embedding of the two post-processing cells of the notebook
    [examples/specimen_weibull/specimen_weibull.ipynb]:

    - the cell that computes [s_mises_max], the largest von Mises stress over
      all integration points of all elements, and
    - the cell that accumulates the Weibull equivalent stressed volume
      [v_eqv] over the element volumes,

    and, further down, of the helper [isclose] with the comprehensions that
    collect the node sets of the symmetry planes and of the load face, and of
    the cross section that [build_model] hands to gmsh (auxiliary lengths,
    points, curves, curve loops and transfinite settings; lengths of the
    cross section are real numbers).

    Numbers.  The notebook works on numpy float64 values.  The embedding uses
    exact rationals ([Q], compared with [==]); rounding, infinities and NaN are
    outside the model.  Where numpy divides by zero it emits a warning and goes
    on; the model goes on as well (with [x / 0 == 0]), so the model agrees with
    the notebook on WHETHER an exception is raised everywhere, and on the VALUE
    wherever no division by zero happens.

    Where a statement is decided by rounding, the same two cells are also
    given in float64 (module [F64], on the kernel's binary64 numbers), and
    evaluated there.

    Dictionaries.  [s_mises] and [volume_result.values] are Python dicts keyed
    by element id.  They are modelled as association lists in iteration order;
    a dict has each key once, which is the hypothesis [NoDup (keys d)] where a
    statement depends on it.

    Literals.  The notebook fixes the exponent ([**30]) and the multiplier
    ([v_eqv *= 8]).  Both literals are arguments [m] and [symmetry_factor] of
    the embedded cell; [notebook_run] is the cell at its literal values. *)

From Stdlib Require Import List ZArith QArith Qpower Qabs Lia Bool Permutation.
From Stdlib Require Import Reals Lra Floats.
Import ListNotations.

Local Open Scope Q_scope.

(** ** Exceptions *)

Module Py.

(** The two exceptions the cells can raise: [ValueError] (from [max] over an
    empty iterable and from [np.max] over a zero-size array) and [KeyError]
    (from a failed dict subscript). *)
Inductive exn : Type :=
| ValueError
| KeyError (eid : Z).

Inductive result (A : Type) : Type :=
| Ok (a : A)
| Raise (e : exn).

Arguments Ok {A} a.
Arguments Raise {A} e.

Definition bind {A B : Type} (c : result A) (k : A -> result B) : result B :=
  match c with
  | Ok a => k a
  | Raise e => Raise e
  end.

Definition raises {A : Type} (c : result A) : Prop :=
  exists e, c = Raise e.

Definition returns {A : Type} (c : result A) : Prop :=
  exists a, c = Ok a.

End Py.

Import Py.

Notation "x <- c ;; k" := (bind c (fun x => k))
  (at level 61, c at next level, right associativity).

(** ** Data model *)

Definition eid := Z.

(** [s_mises]: element id -> vector of von Mises stresses, one entry per
    integration point. *)
Definition stress_dict := list (eid * list Q).

(** [volume_result.values]: element id -> element volume. *)
Definition volume_dict := list (eid * Q).

Definition keys {V : Type} (d : list (eid * V)) : list eid := map fst d.

Definition values {V : Type} (d : list (eid * V)) : list V := map snd d.

(** [d[k]]: the value stored under [k], [KeyError] when [k] is absent. *)
Fixpoint dict_get {V : Type} (d : list (eid * V)) (k : eid) : result V :=
  match d with
  | [] => Raise (KeyError k)
  | (k', v) :: d' => if Z.eqb k k' then Ok v else dict_get d' k
  end.

(** ** The cell computing [s_mises_max] *)

(** One step of a running maximum: [item] replaces [cur] when [item > cur]. *)
Definition max_step (cur item : Q) : Q :=
  if Qle_bool item cur then cur else item.

(** [np.max(s)]: [ValueError] on a zero-size array. *)
Definition np_max (s : list Q) : result Q :=
  match s with
  | [] => Raise ValueError
  | x :: xs => Ok (fold_left max_step xs x)
  end.

(** The loop inside the builtin [max], consuming the generator
    [np.max(s) for s in s_mises.values()] one item at a time. *)
Fixpoint builtin_max_loop (cur : Q) (rest : stress_dict) : result Q :=
  match rest with
  | [] => Ok cur
  | (_, s) :: rest' =>
      item <- np_max s ;;
      builtin_max_loop (max_step cur item) rest'
  end.

(** [s_mises_max = max(np.max(s) for s in s_mises.values())]: [ValueError]
    when the generator yields nothing. *)
Definition s_mises_max (s_mises : stress_dict) : result Q :=
  match s_mises with
  | [] => Raise ValueError
  | (_, s) :: rest =>
      first <- np_max s ;;
      builtin_max_loop first rest
  end.

(** ** The cell computing [v_eqv] *)

(** [np.sum]: accumulation from zero. *)
Definition np_sum (a : list Q) : Q := fold_left Qplus a 0.

(** [len(s)] as a number. *)
Definition len (s : list Q) : Q := inject_Z (Z.of_nat (length s)).

(** The loop body for one element:
    [v_i = v / len(s)] and [v_eqv_e = np.sum((s / s_mises_max)**m * v_i)]. *)
Definition v_eqv_e (m : Z) (smax : Q) (s : list Q) (v : Q) : Q :=
  let v_i := v / len s in
  np_sum (map (fun x => (x / smax) ^ m * v_i) s).

(** [for eid, v in volume_result.values.items(): ...] with the accumulator
    [v_eqv] passed along; the subscript [s_mises[eid]] may raise. *)
Fixpoint v_eqv_loop (m : Z) (smax : Q) (s_mises : stress_dict)
    (items : volume_dict) (v_eqv : Q) : result Q :=
  match items with
  | [] => Ok v_eqv
  | (e, v) :: rest =>
      s <- dict_get s_mises e ;;
      v_eqv_loop m smax s_mises rest (v_eqv + v_eqv_e m smax s v)
  end.

(** The accumulator after the loop and before the final multiplication. *)
Definition v_eqv_raw (m : Z) (smax : Q) (s_mises : stress_dict)
    (volume : volume_dict) : result Q :=
  v_eqv_loop m smax s_mises volume 0.

(** What the two cells leave behind: the value of [v_eqv] and of
    [s_mises_max]. *)
Record outcome : Type := mkOutcome {
  v_eqv : Q;
  s_max : Q
}.

(** Both cells in sequence. *)
Definition compute_equivalent_volume (s_mises : stress_dict)
    (volume : volume_dict) (m : Z) (symmetry_factor : Q) : result outcome :=
  smax <- s_mises_max s_mises ;;
  raw <- v_eqv_raw m smax s_mises volume ;;
  Ok (mkOutcome (raw * symmetry_factor) smax).

(** The notebook's literals. *)
Definition weibull_modulus : Z := 30.
Definition symmetry_multiplier : Q := 8.

Definition notebook_run (s_mises : stress_dict) (volume : volume_dict)
    : result outcome :=
  compute_equivalent_volume s_mises volume weibull_modulus symmetry_multiplier.

(** Equality of outcomes up to equality of rationals. *)
Definition outcome_eq (a b : outcome) : Prop :=
  v_eqv a == v_eqv b /\ s_max a == s_max b.

(** ** The quantities the specification speaks of *)

(** Every stress value of every integration point of every element. *)
Definition all_points (stress : stress_dict) : list Q := concat (values stress).

(** [x] is the global maximum: it occurs among the stresses and bounds them. *)
Definition is_global_max (stress : stress_dict) (x : Q) : Prop :=
  In x (all_points stress) /\ forall y, In y (all_points stress) -> y <= x.

(** The elements at which the value [x] occurs, in dict order. *)
Definition critical_elements (stress : stress_dict) (x : Q) : list eid :=
  keys (filter (fun es => existsb (Qeq_bool x) (snd es)) stress).

Definition Qsum (l : list Q) : Q := fold_right Qplus 0 l.

(** The stress vector and the volume of element [e], with a default for an
    absent element. *)
Definition stress_of (stress : stress_dict) (e : eid) : list Q :=
  match dict_get stress e with Ok s => s | Raise _ => [] end.

Definition volume_of (volume : volume_dict) (e : eid) : Q :=
  match dict_get volume e with Ok v => v | Raise _ => 0 end.

(** [c_e = sum over i of (s_e[i] / s_max)^m * (V_e / n_e)]. *)
Definition spec_contribution (m : Z) (smax : Q) (s_e : list Q) (V_e : Q) : Q :=
  Qsum (map (fun x => (x / smax) ^ m * (V_e / len s_e)) s_e).

(** [V_eqv_raw = sum over e of c_e], the elements being those of the stress
    mapping. *)
Definition spec_v_eqv_raw (m : Z) (smax : Q) (stress : stress_dict)
    (volume : volume_dict) : Q :=
  Qsum (map (fun es => spec_contribution m smax (snd es)
                         (volume_of volume (fst es))) stress).

(** [V_eqv = V_eqv_raw * symmetry_factor], written as in the claim. *)
Definition spec_v_eqv (m : Z) (symmetry_factor smax : Q) (stress : stress_dict)
    (volume : volume_dict) : Q :=
  symmetry_factor * spec_v_eqv_raw m smax stress volume.

(** [sum(volume_by_element.values())]. *)
Definition total_volume (volume : volume_dict) : Q := Qsum (values volume).

(** Every stress multiplied by [k]. *)
Definition scale_stress (k : Q) (stress : stress_dict) : stress_dict :=
  map (fun es => (fst es, map (Qmult k) (snd es))) stress.

(** What the accumulator holds after a loop that finds every stress vector. *)
Definition loop_sum (m : Z) (smax : Q) (s_mises : stress_dict)
    (items : volume_dict) : Q :=
  Qsum (map (fun ev => v_eqv_e m smax (stress_of s_mises (fst ev)) (snd ev))
            items).

(** ** Conditions on the input, as decidable checks *)

Definition mem (e : eid) (l : list eid) : bool := existsb (Z.eqb e) l.

Fixpoint nodupb (l : list eid) : bool :=
  match l with
  | [] => true
  | e :: l' => negb (mem e l') && nodupb l'
  end.

Definition subsetb (l1 l2 : list eid) : bool := forallb (fun e => mem e l2) l1.

(** Both arguments are dicts: no key twice. *)
Definition dicts_ok (stress : stress_dict) (volume : volume_dict) : bool :=
  nodupb (keys stress) && nodupb (keys volume).

Definition nonempty {A : Type} (l : list A) : bool :=
  match l with [] => false | _ :: _ => true end.

(** Identical key sets. *)
Definition same_keys (stress : stress_dict) (volume : volume_dict) : bool :=
  subsetb (keys stress) (keys volume) && subsetb (keys volume) (keys stress).

(** The volume keys are a strict subset of the stress keys. *)
Definition strict_subset_keys (stress : stress_dict) (volume : volume_dict)
    : bool :=
  subsetb (keys volume) (keys stress)
  && negb (subsetb (keys stress) (keys volume)).

(** Every element has at least one integration point ([n_e >= 1]). *)
Definition has_points (stress : stress_dict) : bool :=
  forallb nonempty (values stress).

Definition Qpositive (x : Q) : bool := negb (Qle_bool x 0).

Definition nonneg_stresses (stress : stress_dict) : bool :=
  forallb (Qle_bool 0) (all_points stress).

Definition positive_maximum (stress : stress_dict) : bool :=
  existsb Qpositive (all_points stress).

Definition positive_volumes (volume : volume_dict) : bool :=
  forallb Qpositive (values volume).

(** All stresses equal to the constant [c]. *)
Definition constant_stress (c : Q) (stress : stress_dict) : bool :=
  forallb (Qeq_bool c) (all_points stress).

(** A valid input: two non-empty dicts with identical key sets, a stress
    vector of length at least one per element, non-negative stresses with a
    positive maximum, positive volumes. *)
Definition valid_input (stress : stress_dict) (volume : volume_dict) : bool :=
  dicts_ok stress volume
  && nonempty stress
  && same_keys stress volume
  && has_points stress
  && nonneg_stresses stress
  && positive_maximum stress
  && positive_volumes volume.

(** Projects one conjunct out of [valid_input]. *)
Ltac valid_part H :=
  let H' := fresh in
  pose proof H as H'; unfold valid_input in H';
  rewrite !andb_true_iff in H'; tauto.

(** ** Sample data *)

Module Sample.

Definition elem_A : eid := 1%Z.
Definition elem_B : eid := 2%Z.

Definition stress : stress_dict :=
  [(elem_A, [10; 20]); (elem_B, [20])].

Definition volume : volume_dict :=
  [(elem_A, 4); (elem_B, 3)].

(** Two inputs that differ only in the element that carries the maximum. *)
Definition stress_left : stress_dict := [(elem_A, [2]); (elem_B, [1])].
Definition volume_left : volume_dict := [(elem_A, 1); (elem_B, 1)].
Definition stress_right : stress_dict := [(elem_A, [1]); (elem_B, [2])].
Definition volume_right : volume_dict := [(elem_B, 1); (elem_A, 1)].

(** One element with a negative stress value. *)
Definition stress_negative : stress_dict := [(elem_A, [(-1) # 1; 2])].
Definition volume_single : volume_dict := [(elem_A, 1)].

(** One element under the uniform stress 5. *)
Definition stress_uniform : stress_dict := [(elem_A, [5])].
Definition volume_uniform : volume_dict := [(elem_A, 2)].

(** A stress vector for an element that has no volume entry. *)
Definition elem_C : eid := 3%Z.
Definition stress_extra : list Q := [40].

End Sample.

(** ** The cells that build the node sets *)

(** [def isclose(x, value, tol=1e-5): return abs(x-value) <= tol]. *)
Definition isclose (x value tol : Q) : bool := Qle_bool (Qabs (x - value)) tol.

(** The default [tol=1e-5]: the float64 number that the literal denotes,
    [0x1.4f8b588e368f1p-17 = 5902958103587057 / 2^69], a little above
    [1 / 100000]. *)
Definition default_tol : Q := 5902958103587057 # 590295810358705651712.

(** [model.mesh.nodes]: node id -> coordinates [c[0], c[1], c[2]]. *)
Definition coords : Type := Q * Q * Q.

Definition node_dict := list (eid * coords).

(** The three subscripts the cells use on a coordinate triple. *)
Inductive index : Type := I0 | I1 | I2.

Definition c_at (i : index) (c : coords) : Q :=
  match i, c with
  | I0, (x, _, _) => x
  | I1, (_, y, _) => y
  | I2, (_, _, z) => z
  end.

(** [[nid for nid, c in model.mesh.nodes.items() if isclose(c[i], value)]]:
    the comprehension shared by the four set-building lines. *)
Definition nodes_close (i : index) (value : Q) (nodes : node_dict)
    : list eid :=
  keys (filter (fun nc => isclose (c_at i (snd nc)) value default_tol) nodes).

Definition nx0 (nodes : node_dict) : list eid := nodes_close I0 0 nodes.
Definition ny0 (nodes : node_dict) : list eid := nodes_close I1 0 nodes.
Definition nz0 (nodes : node_dict) : list eid := nodes_close I2 0 nodes.

(** [nload]: all nodes with [y == l_n / 2]. *)
Definition nload (l_n : Q) (nodes : node_dict) : list eid :=
  nodes_close I1 (l_n / 2) nodes.

(** Every volume multiplied by [c]. *)
Definition scale_volume (c : Q) (volume : volume_dict) : volume_dict :=
  map (fun ev => (fst ev, c * snd ev)) volume.

Module MeshSample.

(** Four nodes of a bar of length 100: two on the plane [y = 0], two on the
    end face [y = 50]. *)
Definition nodes : node_dict :=
  [(1%Z, (0, 0, 0)); (2%Z, (7, 0, 0));
   (3%Z, (0, 50, 0)); (4%Z, (7, 50, 1 # 1000000))].

End MeshSample.

Module DictSample.

(** A volume dict whose second and third element ids the sample stress dict
    does not have. *)
Definition volume_unknown : volume_dict :=
  [(Sample.elem_A, 4); (3%Z, 1); (5%Z, 2)].

(** The sample dicts in another iteration order. *)
Definition stress_swapped : stress_dict :=
  [(Sample.elem_B, [20]); (Sample.elem_A, [10; 20])].

Definition volume_swapped : volume_dict :=
  [(Sample.elem_B, 3); (Sample.elem_A, 4)].

(** Two elements with a single stressed integration point. *)
Definition stress_peak : stress_dict :=
  [(Sample.elem_A, [0; 0; 5]); (Sample.elem_B, [0; 0])].

Definition volume_peak : volume_dict :=
  [(Sample.elem_A, 6); (Sample.elem_B, 4)].

(** The outcome of the cells on the sample dicts with modulus 1 and
    multiplier 8. *)
Definition outcome_m1 : outcome :=
  match compute_equivalent_volume Sample.stress Sample.volume 1 8 with
  | Ok o => o
  | Raise _ => mkOutcome 0 0
  end.

End DictSample.

(** ** The cross section built by [build_model] *)

(** [build_model] computes a few lengths and angles from its arguments and
    hands points, curves, curve loops and mesh settings to the gmsh API.
    The embedding keeps what is handed over.  Lengths are real numbers here
    ([np.arccos], [np.cos] and [np.sin] are [acos], [cos] and [sin]). *)

(** A curve between point tags: [addLine(a, b)] or
    [addCircleArc(a, centre, b)]. *)
Inductive curve : Type :=
| Line (start stop : nat)
| CircleArc (start centre stop : nat).

(** The curves bound to [l1 .. l15], in this order. *)
Definition curves : list curve :=
  [ Line 2 3; CircleArc 3 1 4; CircleArc 4 1 5; Line 3 6; CircleArc 6 1 7;
    CircleArc 7 1 8; Line 8 5; Line 7 4; Line 4 9; Line 9 2;
    Line 5 10; Line 10 9; Line 5 12; Line 12 11; Line 11 10 ].

(** The curve loops [c1 .. c5].  The variable [l_i] is written [i]; [-i] is
    [-l_i], the curve run backwards. *)
Definition curve_loops : list (list Z) :=
  [ [1; 2; 9; 10]; [4; 5; 8; -2]; [6; 7; -3; -8]; [3; 11; 12; -9];
    [13; 14; 15; -11] ]%Z.

(** One [setTransfiniteCurve(l, numNodes, coef=...)] call; [coef] is 1 when
    the call does not give it. *)
Record transfinite : Type := mkTransfinite {
  tf_curve : Z;
  tf_nodes : nat;
  tf_coef : Q
}.

(** The calls of the four loops over curve lists and the two single calls,
    in program order. *)
Definition transfinite_curves : list transfinite :=
  map (fun l => mkTransfinite l 11 1) [4; 8; 7]%Z
  ++ map (fun l => mkTransfinite l 6 1) [1; 9; 11; 14]%Z
  ++ map (fun l => mkTransfinite l 16 1) [5; 2; 10]%Z
  ++ map (fun l => mkTransfinite l 11 1) [6; 3; 12]%Z
  ++ [ mkTransfinite 13 11 (14 # 10); mkTransfinite 15 11 (1 / (14 # 10)) ].

(** The curve a loop entry stands for, and its end points in the direction
    of travel. *)
Definition curve_of (z : Z) : option curve :=
  match Z.abs_nat z with
  | O => None
  | S i => nth_error curves i
  end.

Definition curve_ends (c : curve) : nat * nat :=
  match c with
  | Line a b => (a, b)
  | CircleArc a _ b => (a, b)
  end.

Definition travel (z : Z) : option (nat * nat) :=
  match curve_of z with
  | None => None
  | Some c =>
      let (a, b) := curve_ends c in
      Some (if (0 <? z)%Z then (a, b) else (b, a))
  end.

(** Each entry ends where the next one starts, and the last one ends where
    the first one starts. *)
Fixpoint chained (first : nat) (cur : nat) (rest : list Z) : bool :=
  match rest with
  | [] => Nat.eqb cur first
  | z :: rest' =>
      match travel z with
      | Some (a, b) => Nat.eqb cur a && chained first b rest'
      | None => false
      end
  end.

Definition closed_loop (loop : list Z) : bool :=
  match loop with
  | [] => false
  | z :: rest =>
      match travel z with
      | Some (a, b) => chained a b rest
      | None => false
      end
  end.

(** The settings of a curve variable, looked up in the list of calls. *)
Definition settings_of (z : Z) : list transfinite :=
  filter (fun t => Z.eqb (tf_curve t) (Z.abs z)) transfinite_curves.

(** Node count and grading of a loop entry in its direction of travel: a
    curve run backwards has the inverse grading. *)
Definition nodes_along (z : Z) : option nat :=
  match settings_of z with
  | [t] => Some (tf_nodes t)
  | _ => None
  end.

Definition coef_along (z : Z) : option Q :=
  match settings_of z with
  | [t] => Some (if (0 <? z)%Z then tf_coef t else 1 / tf_coef t)
  | _ => None
  end.

(** Opposite sides of a four-sided loop carry the same number of nodes and
    gradings that mirror each other (they are run in opposite directions). *)
Definition sides_match (a c : Z) : bool :=
  match nodes_along a, nodes_along c, coef_along a, coef_along c with
  | Some na, Some nc, Some ka, Some kc =>
      Nat.eqb na nc && Qeq_bool (ka * kc) 1
  | _, _, _, _ => false
  end.

Definition mapped_mesh_ok (loop : list Z) : bool :=
  match loop with
  | [a; b; c; d] => sides_match a c && sides_match b d
  | _ => false
  end.

Local Open Scope R_scope.

(** The auxiliary variables. *)
Definition t_k (d_n d_k r_k : R) : R := r_k - (d_n - d_k) / 2.
Definition r_0 (d_k r_k : R) : R := r_k + d_k / 2.
Definition r_1 (d_k r_k : R) : R := (r_k + r_0 d_k r_k) / 2.
Definition ang (d_n d_k r_k : R) : R := acos (t_k d_n d_k r_k / r_k).
Definition ang_2 (d_n d_k r_k : R) : R :=
  acos (t_k d_n d_k r_k / r_1 d_k r_k).

Definition point : Type := R * R * R.

Definition px (p : point) : R := fst (fst p).
Definition py (p : point) : R := snd (fst p).
Definition pz (p : point) : R := snd p.

(** The list [pnts] after the twelve [append] calls. *)
Definition pnts (l_n d_n d_k r_k : R) : list point :=
  let r_0 := r_0 d_k r_k in
  let r_1 := r_1 d_k r_k in
  let ang := ang d_n d_k r_k in
  let ang_2 := ang_2 d_n d_k r_k in
  let p3 : point := (r_0 - r_1 * cos (ang / 2), r_1 * sin (ang / 2), 0) in
  let p4 : point := (r_0 - r_1 * cos ang_2, r_1 * sin ang_2, 0) in
  [ (r_0, 0, 0);
    (0, 0, 0);
    (r_0 - r_1, 0, 0);
    p3;
    p4;
    (r_0 - r_k, 0, 0);
    (r_0 - r_k * cos (ang / 2), r_k * sin (ang / 2), 0);
    (r_0 - r_k * cos ang, r_k * sin ang, 0);
    (0, py p3, 0);
    (0, py p4, 0);
    (0, l_n / 2, 0);
    (d_n / 2, l_n / 2, 0) ].

(** The point sent to gmsh under [tag]: [enumerate(pnts, 1)]. *)
Definition pnt (l_n d_n d_k r_k : R) (tag : nat) : point :=
  nth (tag - 1) (pnts l_n d_n d_k r_k) (0, 0, 0).

(** Squared distance of two points. *)
Definition dist2 (p q : point) : R :=
  (px p - px q) ^ 2 + (py p - py q) ^ 2 + (pz p - pz q) ^ 2.

(** Start and end of an arc are equally far from its centre. *)
Definition arc_ok (l_n d_n d_k r_k : R) (c : curve) : Prop :=
  match c with
  | Line _ _ => True
  | CircleArc a centre b =>
      dist2 (pnt l_n d_n d_k r_k a) (pnt l_n d_n d_k r_k centre)
      = dist2 (pnt l_n d_n d_k r_k b) (pnt l_n d_n d_k r_k centre)
  end.

Local Close Scope R_scope.

(** What [build_model] does with its lengths before it talks to gmsh.  The
    two divisions [t_k / r_k] and [t_k / r_1] are divisions of Python floats:
    a zero divisor raises [ZeroDivisionError].  [np.arccos] raises nothing: an
    argument outside [[-1, 1]] gives nan (with a warning), and the points
    computed from that angle are nan. *)
Inductive build_outcome : Type :=
| Built (pts : list point)
| NanPoints
| ZeroDivisionError.

Definition in_arccos_domain (x : R) : bool :=
  if Rle_dec (-1) x then (if Rle_dec x 1 then true else false) else false.

Definition build_points (l_n d_n d_k r_k : R) : build_outcome :=
  if Req_dec_T r_k 0 then ZeroDivisionError
  else if Req_dec_T (r_1 d_k r_k) 0 then ZeroDivisionError
  else if in_arccos_domain (t_k d_n d_k r_k / r_k)
          && in_arccos_domain (t_k d_n d_k r_k / r_1 d_k r_k)
       then Built (pnts l_n d_n d_k r_k)
       else NanPoints.

(** Start and end of an arc are equally far from its centre, for the points
    of a given list (point tags count from 1). *)
Definition arc_true (pts : list point) (c : curve) : Prop :=
  match c with
  | Line _ _ => True
  | CircleArc a centre b =>
      dist2 (nth (a - 1) pts (0, 0, 0)%R) (nth (centre - 1) pts (0, 0, 0)%R)
      = dist2 (nth (b - 1) pts (0, 0, 0)%R)
              (nth (centre - 1) pts (0, 0, 0)%R)
  end.

(** ** The two post-processing cells in float64 *)

(** The same two cells on binary64 numbers, operation by operation: every
    division, product, sum and comparison is the float64 one.  Two library
    routines are not part of the notebook and are modelled:

    - [np.sum] adds fewer than eight entries one after the other (numpy
      switches to blocks of eight from eight entries on, which [np_sum] does
      not follow; it is evaluated on shorter vectors only);
    - [**m] calls the C library's [pow]; [np_power] is the correctly rounded
      power of the exact value, for a positive integer exponent. *)
Module F64.

Definition stress_dict := list (eid * list float).
Definition volume_dict := list (eid * float).

(** [item > cur] inside the builtin [max]. *)
Definition max_step (cur item : float) : float :=
  if PrimFloat.ltb cur item then item else cur.

(** [np.maximum], which hands on a nan. *)
Definition np_maximum (a b : float) : float :=
  if PrimFloat.leb b a || PrimFloat.is_nan a then a else b.

Definition np_max (s : list float) : result float :=
  match s with
  | [] => Raise ValueError
  | x :: xs => Ok (fold_left np_maximum xs x)
  end.

Fixpoint builtin_max_loop (cur : float) (rest : stress_dict) : result float :=
  match rest with
  | [] => Ok cur
  | (_, s) :: rest' =>
      item <- np_max s ;;
      builtin_max_loop (max_step cur item) rest'
  end.

Definition s_mises_max (s_mises : stress_dict) : result float :=
  match s_mises with
  | [] => Raise ValueError
  | (_, s) :: rest =>
      first <- np_max s ;;
      builtin_max_loop first rest
  end.

Definition odd_pos (n : positive) : bool :=
  match n with xO _ => false | _ => true end.

Definition np_power (x : float) (n : positive) : float :=
  match Prim2SF x with
  | S754_finite s m e =>
      SF2Prim (binary_round prec emax (s && odd_pos n) (Pos.pow m n)
                 (e * Zpos n))
  | S754_zero s => SF2Prim (S754_zero (s && odd_pos n))
  | S754_infinity s => SF2Prim (S754_infinity (s && odd_pos n))
  | S754_nan => nan
  end.

Definition np_sum (a : list float) : float :=
  fold_left PrimFloat.add a 0%float.

Definition len (s : list float) : float :=
  PrimFloat.of_uint63 (Uint63.of_Z (Z.of_nat (length s))).

Definition v_eqv_e (m : positive) (smax : float) (s : list float) (v : float)
    : float :=
  let v_i := (v / len s)%float in
  np_sum (map (fun x => (np_power (x / smax) m * v_i)%float) s).

Fixpoint v_eqv_loop (m : positive) (smax : float) (s_mises : stress_dict)
    (items : volume_dict) (v_eqv : float) : result float :=
  match items with
  | [] => Ok v_eqv
  | (e, v) :: rest =>
      s <- dict_get s_mises e ;;
      v_eqv_loop m smax s_mises rest (v_eqv + v_eqv_e m smax s v)%float
  end.

Definition v_eqv_raw (m : positive) (smax : float) (s_mises : stress_dict)
    (volume : volume_dict) : result float :=
  v_eqv_loop m smax s_mises volume 0%float.

Record outcome : Type := mkOutcome {
  v_eqv : float;
  s_max : float
}.

Definition compute_equivalent_volume (s_mises : stress_dict)
    (volume : volume_dict) (m : positive) (symmetry_factor : float)
    : result outcome :=
  smax <- s_mises_max s_mises ;;
  raw <- v_eqv_raw m smax s_mises volume ;;
  Ok (mkOutcome (raw * symmetry_factor)%float smax).

(** [sum(volume_by_element.values())]. *)
Definition total_volume (volume : volume_dict) : float :=
  fold_left PrimFloat.add (map snd volume) 0%float.

(** Every stress multiplied by [k]. *)
Definition scale_stress (k : float) (stress : stress_dict) : stress_dict :=
  map (fun es => (fst es, map (PrimFloat.mul k) (snd es))) stress.

(** The conditions of a valid input, on float64 data. *)
Definition valid_input (stress : stress_dict) (volume : volume_dict) : bool :=
  nodupb (keys stress) && nodupb (keys volume)
  && nonempty stress
  && subsetb (keys stress) (keys volume)
  && subsetb (keys volume) (keys stress)
  && forallb nonempty (map snd stress)
  && forallb (PrimFloat.leb 0%float) (concat (map snd stress))
  && existsb (PrimFloat.ltb 0%float) (concat (map snd stress))
  && forallb (PrimFloat.ltb 0%float) (map snd volume).

End F64.

Module F64Sample.

#[local] Set Warnings "-inexact-float".

(** One element, three integration points under the same stress. *)
Definition stress_equal : F64.stress_dict := [(1%Z, [2.5; 2.5; 2.5])]%float.
Definition volume_one : F64.volume_dict := [(1%Z, 7.80575484347077%float)].


Definition stress_plain : F64.stress_dict :=
  [(1%Z, [133.978; 152.14])]%float.
Definition volume_plain : F64.volume_dict := [(1%Z, 4.272%float)].

End F64Sample.

Example sample_run_m1 :
  exists o, compute_equivalent_volume Sample.stress Sample.volume 1 8 = Ok o
            /\ v_eqv o == 48 /\ s_max o == 20.
Proof.
  eexists. split; [vm_compute; reflexivity|]. split; vm_compute; reflexivity.
Qed.

(** ** Sums of rationals *)

Section Sums.

Lemma fold_left_Qplus_acc (l : list Q) (a : Q) :
  fold_left Qplus l a == a + Qsum l.
Proof.
  revert a. induction l as [|x l IH]; intros a; simpl.
  - ring.
  - rewrite IH. ring.
Qed.

Lemma np_sum_Qsum (l : list Q) : np_sum l == Qsum l.
Proof. unfold np_sum. rewrite fold_left_Qplus_acc. ring. Qed.

Lemma Qsum_map_ext {A : Type} (f g : A -> Q) (l : list A) :
  (forall a, In a l -> f a == g a) ->
  Qsum (map f l) == Qsum (map g l).
Proof.
  induction l as [|a l IH]; intros H; simpl.
  - reflexivity.
  - rewrite (H a (or_introl eq_refl)), IH; [reflexivity|].
    intros b Hb. apply H. now right.
Qed.

Lemma Qsum_map_le {A : Type} (f g : A -> Q) (l : list A) :
  (forall a, In a l -> f a <= g a) ->
  Qsum (map f l) <= Qsum (map g l).
Proof.
  induction l as [|a l IH]; intros H; simpl.
  - apply Qle_refl.
  - apply Qplus_le_compat; [apply H; now left|].
    apply IH. intros b Hb. apply H. now right.
Qed.

Lemma Qsum_map_nonneg {A : Type} (f : A -> Q) (l : list A) :
  (forall a, In a l -> 0 <= f a) ->
  0 <= Qsum (map f l).
Proof.
  induction l as [|a l IH]; intros H; simpl.
  - apply Qle_refl.
  - rewrite <- (Qplus_0_l 0). apply Qplus_le_compat; [apply H; now left|].
    apply IH. intros b Hb. apply H. now right.
Qed.

Lemma Qsum_map_scale {A : Type} (c : Q) (f : A -> Q) (l : list A) :
  Qsum (map (fun a => c * f a) l) == c * Qsum (map f l).
Proof.
  induction l as [|a l IH]; simpl.
  - ring.
  - rewrite IH. ring.
Qed.

Lemma Qsum_map_const {A : Type} (c : Q) (l : list A) :
  Qsum (map (fun _ => c) l) == inject_Z (Z.of_nat (length l)) * c.
Proof.
  induction l as [|a l IH].
  - simpl. ring.
  - cbn [map Qsum fold_right length]. fold (Qsum (map (fun _ : A => c) l)).
    rewrite IH, Nat2Z.inj_succ. unfold Z.succ.
    rewrite inject_Z_plus. ring.
Qed.

(** A sum over the keys does not depend on the order of the keys. *)
Lemma Qsum_map_perm {A : Type} (f : A -> Q) (l1 l2 : list A) :
  Permutation l1 l2 -> Qsum (map f l1) == Qsum (map f l2).
Proof.
  induction 1 as [|a l1 l2 _ IH|a b l|l1 l2 l3 _ IH1 _ IH2]; simpl.
  - reflexivity.
  - now rewrite IH.
  - ring.
  - now rewrite IH1.
Qed.

End Sums.

(** ** The running maximum *)

Section Maximum.

Lemma max_step_cases (cur item : Q) :
  (max_step cur item = cur /\ item <= cur)
  \/ (max_step cur item = item /\ cur < item).
Proof.
  unfold max_step. destruct (Qle_bool item cur) eqn:E.
  - left. split; [reflexivity|]. now apply Qle_bool_iff.
  - right. split; [reflexivity|]. apply Qnot_le_lt. intros H.
    apply Qle_bool_iff in H. congruence.
Qed.

Lemma max_step_ge_cur (cur item : Q) : cur <= max_step cur item.
Proof.
  destruct (max_step_cases cur item) as [[-> _]|[-> H]].
  - apply Qle_refl.
  - now apply Qlt_le_weak.
Qed.

Lemma max_step_ge_item (cur item : Q) : item <= max_step cur item.
Proof.
  destruct (max_step_cases cur item) as [[-> H]|[-> _]].
  - exact H.
  - apply Qle_refl.
Qed.

Lemma fold_max_step_in (xs : list Q) (x : Q) :
  In (fold_left max_step xs x) (x :: xs).
Proof.
  revert x. induction xs as [|y xs IH]; intros x; simpl.
  - now left.
  - destruct (IH (max_step x y)) as [H|H].
    + destruct (max_step_cases x y) as [[E _]|[E _]].
      * left. now rewrite <- H, E.
      * right. left. now rewrite <- H, E.
    + right. now right.
Qed.

Lemma fold_max_step_ge (xs : list Q) (x y : Q) :
  In y (x :: xs) -> y <= fold_left max_step xs x.
Proof.
  revert x y. induction xs as [|z xs IH]; intros x y Hy; simpl.
  - destruct Hy as [->|[]]. apply Qle_refl.
  - destruct Hy as [->|[->|Hy]].
    + apply Qle_trans with (max_step y z);
        [apply max_step_ge_cur | apply IH; now left].
    + apply Qle_trans with (max_step x y);
        [apply max_step_ge_item | apply IH; now left].
    + apply IH. now right.
Qed.

Lemma np_max_ok (s : list Q) (r : Q) :
  np_max s = Ok r -> In r s /\ forall y, In y s -> y <= r.
Proof.
  destruct s as [|x xs]; simpl; [discriminate|].
  intros [= <-]. split.
  - apply fold_max_step_in.
  - intros y Hy. now apply fold_max_step_ge.
Qed.

Lemma np_max_nonempty (s : list Q) :
  nonempty s = true -> exists r, np_max s = Ok r.
Proof. destruct s; [discriminate|]. intros _. now eexists. Qed.

End Maximum.

(** ** The checks mean what they say *)

Section Checks.

Lemma mem_In (e : eid) (l : list eid) : mem e l = true <-> In e l.
Proof.
  unfold mem. rewrite existsb_exists. split.
  - intros (x & Hx & E). apply Z.eqb_eq in E. now subst.
  - intros H. exists e. split; [exact H | apply Z.eqb_refl].
Qed.

Lemma mem_false (e : eid) (l : list eid) : mem e l = false <-> ~ In e l.
Proof.
  rewrite <- mem_In. destruct (mem e l); split; congruence.
Qed.

Lemma nodupb_NoDup (l : list eid) : nodupb l = true -> NoDup l.
Proof.
  induction l as [|e l IH]; simpl; intros H; constructor.
  - apply andb_prop in H. destruct H as [H _].
    apply negb_true_iff, mem_false in H. exact H.
  - apply IH. apply andb_prop in H. tauto.
Qed.

Lemma subsetb_spec (l1 l2 : list eid) :
  subsetb l1 l2 = true <-> (forall e, In e l1 -> In e l2).
Proof.
  unfold subsetb. rewrite forallb_forall. split; intros H e He.
  - apply mem_In. now apply H.
  - apply mem_In. now apply H.
Qed.

Lemma same_keys_perm (stress : stress_dict) (volume : volume_dict) :
  dicts_ok stress volume = true -> same_keys stress volume = true ->
  Permutation (keys volume) (keys stress).
Proof.
  unfold dicts_ok, same_keys. intros Hd Hk.
  apply andb_prop in Hd. destruct Hd as [Hs Hv].
  apply andb_prop in Hk. destruct Hk as [Hsv Hvs].
  apply NoDup_Permutation; try now apply nodupb_NoDup.
  intros e. split; [apply subsetb_spec, Hvs | apply subsetb_spec, Hsv].
Qed.

Lemma Qpositive_spec (x : Q) : Qpositive x = true <-> 0 < x.
Proof.
  unfold Qpositive. rewrite negb_true_iff. split.
  - intros H. apply Qnot_le_lt. intros L. apply Qle_bool_iff in L. congruence.
  - intros H. destruct (Qle_bool x 0) eqn:E; [|reflexivity].
    apply Qle_bool_iff in E. exfalso. apply (Qlt_not_le _ _ H E).
Qed.

Lemma has_points_In (stress : stress_dict) (e : eid) (s : list Q) :
  has_points stress = true -> In (e, s) stress -> nonempty s = true.
Proof.
  unfold has_points, values. rewrite forallb_forall. intros H Hin.
  apply H. apply (in_map snd) in Hin. exact Hin.
Qed.

Lemma in_all_points (stress : stress_dict) (e : eid) (s : list Q) (x : Q) :
  In (e, s) stress -> In x s -> In x (all_points stress).
Proof.
  intros Hs Hx. unfold all_points, values. apply in_concat.
  exists s. split; [|exact Hx]. apply (in_map snd) in Hs. exact Hs.
Qed.

End Checks.

(** ** Dict subscripts *)

Section Subscript.

Context {V : Type}.

Lemma dict_get_mem (d : list (eid * V)) (k : eid) :
  mem k (keys d) = true -> exists v, dict_get d k = Ok v /\ In (k, v) d.
Proof.
  induction d as [|[k' v'] d IH]; simpl; [discriminate|].
  destruct (Z.eqb k k') eqn:E; simpl.
  - intros _. apply Z.eqb_eq in E. subst. exists v'. auto.
  - intros H. destruct (IH H) as (v & Hv & Hin). exists v. auto.
Qed.

Lemma dict_get_not_mem (d : list (eid * V)) (k : eid) :
  mem k (keys d) = false -> dict_get d k = Raise (KeyError k).
Proof.
  induction d as [|[k' v'] d IH]; simpl; [reflexivity|].
  destruct (Z.eqb k k') eqn:E; simpl; [discriminate|]. exact IH.
Qed.

Lemma dict_get_nodup (d : list (eid * V)) (k : eid) (v : V) :
  nodupb (keys d) = true -> In (k, v) d -> dict_get d k = Ok v.
Proof.
  induction d as [|[k' v'] d IH]; simpl; [tauto|].
  intros H Hin. apply andb_prop in H. destruct H as [Hn Hd].
  destruct Hin as [[= -> ->]|Hin].
  - now rewrite Z.eqb_refl.
  - destruct (Z.eqb k k') eqn:E; [|now apply IH].
    apply Z.eqb_eq in E. subst k'.
    apply negb_true_iff, mem_false in Hn. exfalso. apply Hn.
    apply (in_map fst) in Hin. exact Hin.
Qed.

End Subscript.

Lemma stress_of_nodup (stress : stress_dict) (e : eid) (s : list Q) :
  nodupb (keys stress) = true -> In (e, s) stress -> stress_of stress e = s.
Proof.
  intros Hn Hin. unfold stress_of. now rewrite (dict_get_nodup _ _ _ Hn Hin).
Qed.

Lemma volume_of_nodup (volume : volume_dict) (e : eid) (v : Q) :
  nodupb (keys volume) = true -> In (e, v) volume -> volume_of volume e = v.
Proof.
  intros Hn Hin. unfold volume_of. now rewrite (dict_get_nodup _ _ _ Hn Hin).
Qed.

Lemma stress_of_In (stress : stress_dict) (e : eid) :
  In e (keys stress) -> In (e, stress_of stress e) stress.
Proof.
  intros H. apply mem_In in H. destruct (dict_get_mem _ _ H) as (s & E & Hin).
  unfold stress_of. now rewrite E.
Qed.

(** ** The maximum cell *)

Section MaxCell.

Lemma builtin_max_loop_ok (rest : stress_dict) (cur : Q) :
  has_points rest = true ->
  exists r, builtin_max_loop cur rest = Ok r
            /\ In r (cur :: all_points rest)
            /\ forall y, In y (cur :: all_points rest) -> y <= r.
Proof.
  revert cur. induction rest as [|[e s] rest IH]; intros cur Hp.
  - exists cur. split; [reflexivity|]. split; [now left|].
    intros y [->|[]]. apply Qle_refl.
  - unfold has_points in Hp. simpl in Hp. apply andb_prop in Hp.
    destruct Hp as [Hs Hp].
    destruct (np_max_nonempty s Hs) as (item & Hitem).
    destruct (np_max_ok s item Hitem) as [Hin Hmax].
    destruct (IH (max_step cur item) Hp) as (r & Hr & Hrin & Hrmax).
    exists r. simpl. rewrite Hitem. simpl. split; [exact Hr|].
    change (all_points ((e, s) :: rest)) with (s ++ all_points rest).
    split.
    + destruct Hrin as [Hrin|Hrin].
      * destruct (max_step_cases cur item) as [[E _]|[E _]];
          rewrite E in Hrin; subst r.
        -- now left.
        -- right. apply in_or_app. now left.
      * right. apply in_or_app. now right.
    + intros y [->|Hy].
      * apply Qle_trans with (max_step y item);
          [apply max_step_ge_cur | apply Hrmax; now left].
      * apply in_app_or in Hy. destruct Hy as [Hy|Hy].
        -- apply Qle_trans with item; [now apply Hmax|].
           apply Qle_trans with (max_step cur item);
             [apply max_step_ge_item | apply Hrmax; now left].
        -- apply Hrmax. now right.
Qed.

Lemma builtin_max_loop_raise (rest : stress_dict) (cur : Q) :
  has_points rest = false -> builtin_max_loop cur rest = Raise ValueError.
Proof.
  revert cur. induction rest as [|[e s] rest IH]; intros cur Hp.
  - discriminate.
  - unfold has_points in Hp. simpl in Hp. simpl.
    destruct s as [|x xs]; [reflexivity|]. simpl in *. now apply IH.
Qed.

Lemma s_mises_max_ok (stress : stress_dict) :
  nonempty stress = true -> has_points stress = true ->
  exists r, s_mises_max stress = Ok r /\ is_global_max stress r.
Proof.
  destruct stress as [|[e s] rest]; [discriminate|]. intros _ Hp.
  unfold has_points in Hp. simpl in Hp. apply andb_prop in Hp.
  destruct Hp as [Hs Hp].
  destruct (np_max_nonempty s Hs) as (first & Hfirst).
  destruct (np_max_ok s first Hfirst) as [Hin Hmax].
  destruct (builtin_max_loop_ok rest first Hp) as (r & Hr & Hrin & Hrmax).
  exists r. simpl. rewrite Hfirst. simpl. split; [exact Hr|].
  unfold is_global_max.
  change (all_points ((e, s) :: rest)) with (s ++ all_points rest). split.
  - apply in_or_app. destruct Hrin as [<-|Hrin]; auto.
  - intros y Hy. apply in_app_or in Hy. destruct Hy as [Hy|Hy].
    + apply Qle_trans with first; [now apply Hmax | apply Hrmax; now left].
    + apply Hrmax. now right.
Qed.

Lemma s_mises_max_raise (stress : stress_dict) :
  nonempty stress && has_points stress = false ->
  s_mises_max stress = Raise ValueError.
Proof.
  destruct stress as [|[e s] rest]; [reflexivity|]. simpl.
  unfold has_points. simpl. destruct s as [|x xs]; [reflexivity|]. simpl.
  apply builtin_max_loop_raise.
Qed.

End MaxCell.

(** ** Powers of a ratio in [[0, 1]] *)

Section Powers.

Lemma Qpower_le_1 (r : Q) (n : Z) :
  0 <= r -> r <= 1 -> (0 <= n)%Z -> r ^ n <= 1.
Proof.
  intros H0 H1 Hn. pattern n. apply natlike_ind; [| |exact Hn].
  - simpl. apply Qle_refl.
  - intros k Hk IH. unfold Z.succ.
    rewrite Qpower_plus' by lia. rewrite Qpower_1_r.
    rewrite <- (Qmult_1_l 1).
    apply Qmult_le_compat_nonneg; split; auto.
    now apply Qpower_0_le.
Qed.

Lemma Qpower_antitone (r : Q) (n k : Z) :
  0 <= r -> r <= 1 -> (0 < n)%Z -> (n <= k)%Z -> r ^ k <= r ^ n.
Proof.
  intros H0 H1 Hn Hk.
  replace k with (n + (k - n))%Z by lia.
  rewrite Qpower_plus' by lia.
  rewrite <- (Qmult_1_r (r ^ n)) at 2.
  apply Qmult_le_compat_nonneg; split.
  - now apply Qpower_0_le.
  - apply Qle_refl.
  - now apply Qpower_0_le.
  - apply Qpower_le_1; auto. lia.
Qed.

Lemma ratio_bounds (x smax : Q) :
  0 < smax -> 0 <= x -> x <= smax -> 0 <= x / smax /\ x / smax <= 1.
Proof.
  intros Hs H0 H1. split.
  - apply Qle_shift_div_l; [exact Hs|]. now rewrite Qmult_0_l.
  - apply Qle_shift_div_r; [exact Hs|]. now rewrite Qmult_1_l.
Qed.

Lemma len_pos (s : list Q) : nonempty s = true -> 0 < len s.
Proof.
  destruct s as [|x xs]; [discriminate|]. intros _. unfold len.
  unfold Qlt. simpl. lia.
Qed.

End Powers.

(** ** The loop body *)

Section Body.

Variables (m : Z) (smax : Q).

Lemma v_eqv_e_spec (s : list Q) (v : Q) :
  v_eqv_e m smax s v == spec_contribution m smax s v.
Proof. unfold v_eqv_e, spec_contribution. apply np_sum_Qsum. Qed.

Lemma v_eqv_e_nonneg (s : list Q) (v : Q) :
  (forall x, In x s -> 0 <= x / smax) -> 0 <= v ->
  0 <= v_eqv_e m smax s v.
Proof.
  intros Hr Hv. rewrite v_eqv_e_spec. unfold spec_contribution.
  apply Qsum_map_nonneg. intros x Hx.
  apply Qmult_le_0_compat; [apply Qpower_0_le; now apply Hr|].
  destruct s as [|y ys]; [destruct Hx|].
  apply Qle_shift_div_l; [now apply len_pos|]. now rewrite Qmult_0_l.
Qed.

Lemma v_eqv_e_le_volume (s : list Q) (v : Q) :
  nonempty s = true ->
  (forall x, In x s -> 0 <= x / smax /\ x / smax <= 1) ->
  0 <= v -> (0 <= m)%Z ->
  v_eqv_e m smax s v <= v.
Proof.
  intros Hs Hr Hv Hm. rewrite v_eqv_e_spec. unfold spec_contribution.
  pose proof (len_pos s Hs) as Hl.
  assert (Hvi : 0 <= v / len s).
  { apply Qle_shift_div_l; [exact Hl|]. now rewrite Qmult_0_l. }
  apply Qle_trans with (Qsum (map (fun _ => v / len s) s)).
  - apply Qsum_map_le. intros x Hx. destruct (Hr x Hx) as [H0 H1].
    rewrite <- (Qmult_1_l (v / len s)) at 2.
    apply Qmult_le_compat_nonneg; split; auto.
    + now apply Qpower_0_le.
    + now apply Qpower_le_1.
    + apply Qle_refl.
  - rewrite Qsum_map_const. fold (len s).
    assert (E : len s * (v / len s) == v).
    { field. intros E. rewrite E in Hl. now apply Qlt_irrefl in Hl. }
    rewrite E. apply Qle_refl.
Qed.

Lemma v_eqv_e_all_one (s : list Q) (v : Q) :
  nonempty s = true ->
  (forall x, In x s -> x / smax == 1) ->
  v_eqv_e m smax s v == v.
Proof.
  intros Hs Hr. rewrite v_eqv_e_spec. unfold spec_contribution.
  pose proof (len_pos s Hs) as Hl.
  rewrite (Qsum_map_ext _ (fun _ => v / len s)).
  - rewrite Qsum_map_const. fold (len s).
    field. intros E. rewrite E in Hl. now apply Qlt_irrefl in Hl.
  - intros x Hx. rewrite (Hr x Hx), Qpower_1. ring.
Qed.

End Body.

Lemma v_eqv_e_antitone (m1 m2 : Z) (smax : Q) (s : list Q) (v : Q) :
  (forall x, In x s -> 0 <= x / smax /\ x / smax <= 1) ->
  0 <= v -> (0 < m1)%Z -> (m1 <= m2)%Z ->
  v_eqv_e m2 smax s v <= v_eqv_e m1 smax s v.
Proof.
  intros Hr Hv H1 H2. rewrite !v_eqv_e_spec. unfold spec_contribution.
  apply Qsum_map_le. intros x Hx. destruct (Hr x Hx) as [Ha Hb].
  destruct s as [|y ys]; [destruct Hx|].
  apply Qmult_le_compat_nonneg; split.
  - now apply Qpower_0_le.
  - now apply Qpower_antitone.
  - apply Qle_shift_div_l; [now apply len_pos|]. now rewrite Qmult_0_l.
  - apply Qle_refl.
Qed.

(** ** The accumulation loop *)

Section Loop.

Variables (m : Z) (smax : Q) (s_mises : stress_dict).

Lemma v_eqv_loop_ok (items : volume_dict) (acc : Q) :
  subsetb (keys items) (keys s_mises) = true ->
  exists r, v_eqv_loop m smax s_mises items acc = Ok r
            /\ r == acc + loop_sum m smax s_mises items.
Proof.
  revert acc. induction items as [|[e v] rest IH]; intros acc Hsub.
  - exists acc. split; [reflexivity|]. unfold loop_sum. simpl. ring.
  - simpl in Hsub. apply andb_prop in Hsub. destruct Hsub as [He Hsub].
    destruct (dict_get_mem _ _ He) as (s & Hs & _).
    destruct (IH (acc + v_eqv_e m smax s v) Hsub) as (r & Hr & Hsum).
    exists r. simpl. rewrite Hs. simpl. split; [exact Hr|].
    rewrite Hsum. unfold loop_sum. simpl. unfold stress_of at 2.
    rewrite Hs. ring.
Qed.

Lemma v_eqv_loop_raise (items : volume_dict) (acc : Q) :
  subsetb (keys items) (keys s_mises) = false ->
  exists e, v_eqv_loop m smax s_mises items acc = Raise (KeyError e)
            /\ In e (keys items) /\ ~ In e (keys s_mises).
Proof.
  revert acc. induction items as [|[e v] rest IH]; intros acc Hsub.
  - discriminate.
  - simpl in Hsub. destruct (mem e (keys s_mises)) eqn:He; simpl in Hsub.
    + destruct (dict_get_mem _ _ He) as (s & Hs & _).
      destruct (IH (acc + v_eqv_e m smax s v) Hsub) as (x & Hx & Hin & Hn).
      exists x. simpl. rewrite Hs. simpl. auto.
    + exists e. simpl. rewrite (dict_get_not_mem _ _ He). simpl.
      split; [reflexivity|]. split; [now left|]. now apply mem_false.
Qed.

End Loop.

(** ** Both cells together *)

Section Cells.

Lemma compute_ok (stress : stress_dict) (volume : volume_dict) (m : Z)
    (sym : Q) :
  nonempty stress = true -> has_points stress = true ->
  subsetb (keys volume) (keys stress) = true ->
  exists smax raw,
    s_mises_max stress = Ok smax
    /\ is_global_max stress smax
    /\ v_eqv_raw m smax stress volume = Ok raw
    /\ raw == loop_sum m smax stress volume
    /\ compute_equivalent_volume stress volume m sym
       = Ok (mkOutcome (raw * sym) smax).
Proof.
  intros Hne Hp Hsub.
  destruct (s_mises_max_ok stress Hne Hp) as (smax & Hmax & Hglob).
  destruct (v_eqv_loop_ok m smax stress volume 0 Hsub) as (raw & Hraw & Hsum).
  exists smax, raw. repeat split; try assumption.
  - apply Hglob.
  - apply Hglob.
  - rewrite Hsum. ring.
  - unfold compute_equivalent_volume, v_eqv_raw. rewrite Hmax. simpl.
    rewrite Hraw. reflexivity.
Qed.

Lemma compute_raise_value (stress : stress_dict) (volume : volume_dict)
    (m : Z) (sym : Q) :
  nonempty stress && has_points stress = false ->
  compute_equivalent_volume stress volume m sym = Raise ValueError.
Proof.
  intros H. unfold compute_equivalent_volume.
  now rewrite (s_mises_max_raise stress H).
Qed.

Lemma compute_raise_key (stress : stress_dict) (volume : volume_dict)
    (m : Z) (sym : Q) :
  nonempty stress = true -> has_points stress = true ->
  subsetb (keys volume) (keys stress) = false ->
  exists e, compute_equivalent_volume stress volume m sym = Raise (KeyError e)
            /\ In e (keys volume) /\ ~ In e (keys stress).
Proof.
  intros Hne Hp Hsub.
  destruct (s_mises_max_ok stress Hne Hp) as (smax & Hmax & _).
  destruct (v_eqv_loop_raise m smax stress volume 0 Hsub) as (e & He & Hin).
  exists e. split; [|exact Hin].
  unfold compute_equivalent_volume, v_eqv_raw. rewrite Hmax. simpl.
  now rewrite He.
Qed.

End Cells.

(** ** Valid inputs *)

Section Valid.

Variables (stress : stress_dict) (volume : volume_dict).
Hypothesis Hvalid : valid_input stress volume = true.

Lemma valid_dicts : dicts_ok stress volume = true.
Proof. valid_part Hvalid. Qed.

Lemma valid_nonempty : nonempty stress = true.
Proof. valid_part Hvalid. Qed.

Lemma valid_same_keys : same_keys stress volume = true.
Proof. valid_part Hvalid. Qed.

Lemma valid_has_points : has_points stress = true.
Proof. valid_part Hvalid. Qed.

Lemma valid_nonneg : nonneg_stresses stress = true.
Proof. valid_part Hvalid. Qed.

Lemma valid_positive_maximum : positive_maximum stress = true.
Proof. valid_part Hvalid. Qed.

Lemma valid_positive_volumes : positive_volumes volume = true.
Proof. valid_part Hvalid. Qed.

Lemma valid_subset : subsetb (keys volume) (keys stress) = true.
Proof.
  pose proof valid_same_keys as H. unfold same_keys in H.
  apply andb_prop in H. tauto.
Qed.

Lemma valid_max_positive (smax : Q) : is_global_max stress smax -> 0 < smax.
Proof.
  intros [_ Hmax]. pose proof valid_positive_maximum as H.
  unfold positive_maximum in H. apply existsb_exists in H.
  destruct H as (x & Hx & Hpos). apply Qpositive_spec in Hpos.
  apply Qlt_le_trans with x; [exact Hpos | now apply Hmax].
Qed.

Lemma valid_point_nonneg (x : Q) : In x (all_points stress) -> 0 <= x.
Proof.
  intros Hx. pose proof valid_nonneg as H. unfold nonneg_stresses in H.
  rewrite forallb_forall in H. apply Qle_bool_iff. now apply H.
Qed.

(** The facts about one entry of the volume dict that the bounds rest on. *)
Lemma valid_entry (smax : Q) (e : eid) (v : Q) :
  is_global_max stress smax -> In (e, v) volume ->
  nonempty (stress_of stress e) = true
  /\ (forall x, In x (stress_of stress e) ->
        0 <= x / smax /\ x / smax <= 1)
  /\ 0 < v.
Proof.
  intros Hglob Hin.
  assert (He : In (e, stress_of stress e) stress).
  { apply stress_of_In. apply (subsetb_spec (keys volume)).
    - exact valid_subset.
    - apply (in_map fst) in Hin. exact Hin. }
  split; [|split].
  - exact (has_points_In _ _ _ valid_has_points He).
  - intros x Hx. pose proof (in_all_points _ _ _ _ He Hx) as Hall.
    apply ratio_bounds.
    + now apply valid_max_positive.
    + now apply valid_point_nonneg.
    + now apply Hglob.
  - pose proof valid_positive_volumes as H. unfold positive_volumes in H.
    rewrite forallb_forall in H. apply Qpositive_spec, H.
    apply (in_map snd) in Hin. exact Hin.
Qed.

(** The loop's sum over the volume dict is the sum over the elements of the
    stress dict. *)
Lemma loop_sum_spec (m : Z) (smax : Q) :
  loop_sum m smax stress volume == spec_v_eqv_raw m smax stress volume.
Proof.
  pose proof valid_dicts as Hd.
  pose proof (same_keys_perm _ _ Hd valid_same_keys) as Hperm.
  unfold dicts_ok in Hd. apply andb_prop in Hd. destruct Hd as [Hs Hv].
  set (term := fun e => spec_contribution m smax (stress_of stress e)
                          (volume_of volume e)).
  unfold loop_sum, spec_v_eqv_raw.
  rewrite (Qsum_map_ext _ (fun ev => term (fst ev))).
  - rewrite (Qsum_map_ext (fun es => spec_contribution m smax (snd es) _)
                          (fun es => term (fst es))).
    + rewrite <- !(map_map fst term). apply Qsum_map_perm. exact Hperm.
    + intros [e s] Hin. unfold term. simpl.
      now rewrite (stress_of_nodup _ _ _ Hs Hin).
  - intros [e v] Hin. unfold term. simpl.
    rewrite (volume_of_nodup _ _ _ Hv Hin). apply v_eqv_e_spec.
Qed.

End Valid.

(** ** The formula *)

(** C1: on a valid input (non-empty dicts with identical key sets, at least
    one integration point per element, non-negative stresses with a positive
    maximum, positive volumes), with a positive modulus [m] and a positive
    symmetry factor, the cells return [v_eqv] equal to the symmetry factor
    times the sum over the elements [e] of the sum over the integration points
    [i] of [(s_e[i] / s_max)^m * (V_e / n_e)], where [s_max] is the maximum
    stress over all integration points of all elements. *)
Theorem v_eqv_formula (stress : stress_dict) (volume : volume_dict) (m : Z)
    (symmetry_factor : Q) :
  valid_input stress volume = true ->
  (0 < m)%Z ->
  0 < symmetry_factor ->
  exists o,
    compute_equivalent_volume stress volume m symmetry_factor = Ok o
    /\ is_global_max stress (s_max o)
    /\ v_eqv o == spec_v_eqv m symmetry_factor (s_max o) stress volume.
Proof.
  intros Hv _ _.
  destruct (compute_ok stress volume m symmetry_factor
              (valid_nonempty _ _ Hv) (valid_has_points _ _ Hv)
              (valid_subset _ _ Hv))
    as (smax & raw & _ & Hglob & _ & Hsum & Hrun).
  eexists. split; [exact Hrun|]. simpl. split; [exact Hglob|].
  unfold spec_v_eqv. rewrite Hsum, (loop_sum_spec _ _ Hv). ring.
Qed.

Lemma v_eqv_formula_witness :
  exists o,
    compute_equivalent_volume Sample.stress Sample.volume 30 8 = Ok o
    /\ is_global_max Sample.stress (s_max o)
    /\ v_eqv o == spec_v_eqv 30 8 (s_max o) Sample.stress Sample.volume.
Proof.
  apply (v_eqv_formula Sample.stress Sample.volume 30 8);
    [reflexivity | lia | reflexivity].
Defined.

(** ** What the cells return *)

Lemma critical_elements_nonempty (stress : stress_dict) (x : Q) :
  In x (all_points stress) -> critical_elements stress x <> [].
Proof.
  unfold all_points, values, critical_elements, keys. intros Hx.
  apply in_concat in Hx. destruct Hx as (s & Hs & Hxs).
  apply in_map_iff in Hs. destruct Hs as ([e s'] & E & Hin).
  simpl in E. subst s'.
  assert (Hf : In (e, s) (filter (fun es => existsb (Qeq_bool x) (snd es))
                                 stress)).
  { apply filter_In. split; [exact Hin|]. simpl. apply existsb_exists.
    exists x. split; [exact Hxs|]. apply Qeq_bool_iff. reflexivity. }
  intros E. apply map_eq_nil in E. rewrite E in Hf. destruct Hf.
Qed.

(** C2 (amended): on a valid input the cells return the scalar [v_eqv],
    which is the accumulated raw value times the symmetry factor, and
    [s_max], the global maximum stress over all integration points of all
    elements; that maximum occurs at some element, but no element id is part
    of what is returned. *)
Theorem returns_v_eqv_and_s_max (stress : stress_dict) (volume : volume_dict)
    (m : Z) (symmetry_factor : Q) :
  valid_input stress volume = true ->
  (0 < m)%Z ->
  exists o raw,
    compute_equivalent_volume stress volume m symmetry_factor = Ok o
    /\ s_mises_max stress = Ok (s_max o)
    /\ is_global_max stress (s_max o)
    /\ critical_elements stress (s_max o) <> []
    /\ v_eqv_raw m (s_max o) stress volume = Ok raw
    /\ v_eqv o = raw * symmetry_factor.
Proof.
  intros Hv _.
  destruct (compute_ok stress volume m symmetry_factor
              (valid_nonempty _ _ Hv) (valid_has_points _ _ Hv)
              (valid_subset _ _ Hv))
    as (smax & raw & Hmax & Hglob & Hraw & _ & Hrun).
  exists (mkOutcome (raw * symmetry_factor) smax), raw. simpl.
  repeat split; try assumption; try apply Hglob.
  apply critical_elements_nonempty, Hglob.
Qed.

Lemma returns_v_eqv_and_s_max_witness :
  exists o raw,
    compute_equivalent_volume Sample.stress Sample.volume 30 8 = Ok o
    /\ s_mises_max Sample.stress = Ok (s_max o)
    /\ is_global_max Sample.stress (s_max o)
    /\ critical_elements Sample.stress (s_max o) <> []
    /\ v_eqv_raw 30 (s_max o) Sample.stress Sample.volume = Ok raw
    /\ v_eqv o = raw * 8.
Proof.
  apply (returns_v_eqv_and_s_max Sample.stress Sample.volume 30 8);
    [reflexivity | lia].
Defined.

(** C2 as stated fails: what the cells return does not determine the
    element at which the maximum occurred.  Two valid inputs give the very
    same outcome while their maxima sit at different elements, so no reading
    of the outcome yields the critical element id. *)
Lemma no_critical_element_id :
  ~ exists locate : outcome -> eid,
      forall stress volume o,
        valid_input stress volume = true ->
        notebook_run stress volume = Ok o ->
        In (locate o) (critical_elements stress (s_max o)).
Proof.
  intros (locate & H).
  assert (E : notebook_run Sample.stress_left Sample.volume_left
              = notebook_run Sample.stress_right Sample.volume_right).
  { vm_compute. reflexivity. }
  destruct (notebook_run Sample.stress_left Sample.volume_left) as [o|e] eqn:L;
    [|vm_compute in L; discriminate].
  pose proof (H Sample.stress_left Sample.volume_left o eq_refl L) as Hl.
  pose proof (H Sample.stress_right Sample.volume_right o eq_refl
                (eq_sym E)) as Hr.
  vm_compute in L. injection L as <-.
  vm_compute in Hl, Hr. destruct Hl as [Hl|[]]. destruct Hr as [Hr|[]].
  rewrite <- Hl in Hr. discriminate.
Qed.

(** ** When the cells raise *)

(** C3 (amended): the cells raise exactly when the stress dict is empty, or
    some element of the stress dict has no integration point, or some element
    id of the volume dict is missing from the stress dict.  The exception is
    [ValueError] in the first two cases and [KeyError] (carrying a missing
    id) in the third.  An empty volume dict, and element ids that only the
    stress dict has, raise nothing. *)
Theorem raise_conditions (stress : stress_dict) (volume : volume_dict)
    (m : Z) (symmetry_factor : Q) :
  (raises (compute_equivalent_volume stress volume m symmetry_factor) <->
     nonempty stress = false
     \/ has_points stress = false
     \/ subsetb (keys volume) (keys stress) = false)
  /\ (forall e,
        compute_equivalent_volume stress volume m symmetry_factor = Raise e ->
        (e = ValueError
         /\ (nonempty stress = false \/ has_points stress = false))
        \/ (exists k, e = KeyError k
                      /\ In k (keys volume) /\ ~ In k (keys stress))).
Proof.
  destruct (nonempty stress) eqn:Hne; [destruct (has_points stress) eqn:Hp|].
  - destruct (subsetb (keys volume) (keys stress)) eqn:Hsub.
    + destruct (compute_ok stress volume m symmetry_factor Hne Hp Hsub)
        as (smax & raw & _ & _ & _ & _ & Hrun).
      rewrite Hrun. split.
      * split; [intros (e & He); discriminate|].
        intros [H|[H|H]]; discriminate.
      * intros e He. discriminate.
    + destruct (compute_raise_key stress volume m symmetry_factor Hne Hp Hsub)
        as (k & Hrun & Hin).
      rewrite Hrun. split.
      * split; [auto|]. intros _. now exists (KeyError k).
      * intros e [= <-]. right. exists k. auto.
  - rewrite (compute_raise_value stress volume m symmetry_factor)
      by (rewrite Hne, Hp; reflexivity).
    split.
    + split; [auto|]. intros _. now exists ValueError.
    + intros e [= <-]. left. auto.
  - rewrite (compute_raise_value stress volume m symmetry_factor)
      by (rewrite Hne; reflexivity).
    split.
    + split; [auto|]. intros _. now exists ValueError.
    + intros e [= <-]. left. auto.
Qed.

(** C3 as stated fails: with a non-empty stress dict and an empty volume
    dict (one mapping empty, key sets different) the cells raise nothing. *)
Lemma empty_volume_dict_not_rejected :
  ~ (raises (notebook_run Sample.stress []) <->
       nonempty Sample.stress = false
       \/ nonempty (@nil (eid * Q)) = false
       \/ same_keys Sample.stress [] = false).
Proof.
  intros [_ H]. destruct H as (e & He).
  - right. left. reflexivity.
  - vm_compute in He. discriminate.
Qed.

(** C4 (amended): the cells check no value domain.  On two dicts with
    consistent keys (a non-empty stress dict that has every element id of the
    volume dict) they return an outcome whatever the signs of the stresses,
    of the volumes, of the maximum and of the modulus, provided every element
    has an integration point; an element with zero integration points makes
    them raise [ValueError]. *)
Theorem no_domain_check (stress : stress_dict) (volume : volume_dict)
    (m : Z) (symmetry_factor : Q) :
  nonempty stress = true ->
  subsetb (keys volume) (keys stress) = true ->
  if has_points stress
  then returns (compute_equivalent_volume stress volume m symmetry_factor)
  else compute_equivalent_volume stress volume m symmetry_factor
       = Raise ValueError.
Proof.
  intros Hne Hsub. destruct (has_points stress) eqn:Hp.
  - destruct (compute_ok stress volume m symmetry_factor Hne Hp Hsub)
      as (smax & raw & _ & _ & _ & _ & Hrun).
    rewrite Hrun. now eexists.
  - apply compute_raise_value. rewrite Hne, Hp. reflexivity.
Qed.

Lemma no_domain_check_witness :
  returns (compute_equivalent_volume Sample.stress_negative
             Sample.volume_single (-3) (-8 # 1)).
Proof.
  apply (no_domain_check Sample.stress_negative Sample.volume_single
           (-3) (-8 # 1)); reflexivity.
Defined.

(** C4 as stated fails: an input with a negative stress value is processed
    without any exception. *)
Lemma negative_stress_not_rejected :
  ~ ((exists x, In x (all_points Sample.stress_negative) /\ x < 0) ->
     raises (notebook_run Sample.stress_negative Sample.volume_single)).
Proof.
  intros H. destruct H as (e & He).
  - exists ((-1) # 1). split; [simpl; auto | reflexivity].
  - vm_compute in He. discriminate.
Qed.

(** ** Bounds, uniform stress, monotonicity *)

Lemma total_volume_as_map (volume : volume_dict) :
  total_volume volume = Qsum (map snd volume).
Proof. reflexivity. Qed.

(** C5 (amended): on a valid input with a positive modulus, and with the
    arithmetic of the cells taken exactly (no float64 rounding), the
    accumulated raw value lies between zero and the sum of all element
    volumes. *)
Theorem v_eqv_raw_bounds (stress : stress_dict) (volume : volume_dict)
    (m : Z) :
  valid_input stress volume = true ->
  (0 < m)%Z ->
  exists smax raw,
    s_mises_max stress = Ok smax
    /\ v_eqv_raw m smax stress volume = Ok raw
    /\ 0 <= raw
    /\ raw <= total_volume volume.
Proof.
  intros Hv Hm.
  destruct (compute_ok stress volume m 1
              (valid_nonempty _ _ Hv) (valid_has_points _ _ Hv)
              (valid_subset _ _ Hv))
    as (smax & raw & Hmax & Hglob & Hraw & Hsum & _).
  exists smax, raw. repeat split; try assumption; rewrite Hsum.
  - unfold loop_sum. apply Qsum_map_nonneg. intros [e v] Hin. simpl.
    destruct (valid_entry _ _ Hv smax e v Hglob Hin) as (_ & Hr & Hpos).
    apply v_eqv_e_nonneg; [apply Hr | now apply Qlt_le_weak].
  - rewrite total_volume_as_map. unfold loop_sum.
    apply Qsum_map_le. intros [e v] Hin. simpl.
    destruct (valid_entry _ _ Hv smax e v Hglob Hin) as (Hne & Hr & Hpos).
    apply v_eqv_e_le_volume; auto; [now apply Qlt_le_weak | lia].
Qed.

Lemma v_eqv_raw_bounds_witness :
  exists smax raw,
    s_mises_max Sample.stress = Ok smax
    /\ v_eqv_raw 30 smax Sample.stress Sample.volume = Ok raw
    /\ 0 <= raw
    /\ raw <= total_volume Sample.volume.
Proof.
  apply (v_eqv_raw_bounds Sample.stress Sample.volume 30);
    [reflexivity | lia].
Defined.

(** C7 (amended): on a valid input whose stress values all equal one
    positive constant, and with the arithmetic of the cells taken exactly
    (no float64 rounding), the accumulated raw value equals the sum of the
    element volumes, and the returned [v_eqv] equals the symmetry factor
    times that sum. *)
Theorem uniform_stress_total_volume (stress : stress_dict)
    (volume : volume_dict) (m : Z) (symmetry_factor c : Q) :
  valid_input stress volume = true ->
  constant_stress c stress = true ->
  exists o raw,
    compute_equivalent_volume stress volume m symmetry_factor = Ok o
    /\ v_eqv_raw m (s_max o) stress volume = Ok raw
    /\ raw == total_volume volume
    /\ v_eqv o == symmetry_factor * total_volume volume.
Proof.
  intros Hv Hc.
  destruct (compute_ok stress volume m symmetry_factor
              (valid_nonempty _ _ Hv) (valid_has_points _ _ Hv)
              (valid_subset _ _ Hv))
    as (smax & raw & Hmax & Hglob & Hraw & Hsum & Hrun).
  assert (Hconst : forall x, In x (all_points stress) -> x == c).
  { intros x Hx. unfold constant_stress in Hc. rewrite forallb_forall in Hc.
    symmetry. apply Qeq_bool_iff. now apply Hc. }
  assert (Hpos : 0 < smax) by (now apply (valid_max_positive _ _ Hv)).
  assert (Htotal : raw == total_volume volume).
  { rewrite Hsum, total_volume_as_map. unfold loop_sum.
    apply Qsum_map_ext. intros [e v] Hin. simpl.
    destruct (valid_entry _ _ Hv smax e v Hglob Hin) as (Hne & _ & _).
    apply v_eqv_e_all_one; [exact Hne|].
    intros x Hx.
    assert (He : In (e, stress_of stress e) stress).
    { apply stress_of_In. apply (subsetb_spec (keys volume)).
      - exact (valid_subset _ _ Hv).
      - apply (in_map fst) in Hin. exact Hin. }
    rewrite (Hconst x (in_all_points _ _ _ _ He Hx)).
    rewrite <- (Hconst smax (proj1 Hglob)).
    field. intros E. rewrite E in Hpos. now apply Qlt_irrefl in Hpos. }
  exists (mkOutcome (raw * symmetry_factor) smax), raw. simpl.
  repeat split; try assumption.
  rewrite Htotal. ring.
Qed.

Lemma uniform_stress_total_volume_witness :
  exists o raw,
    compute_equivalent_volume Sample.stress_uniform Sample.volume_uniform
      30 8 = Ok o
    /\ v_eqv_raw 30 (s_max o) Sample.stress_uniform Sample.volume_uniform
       = Ok raw
    /\ raw == total_volume Sample.volume_uniform
    /\ v_eqv o == 8 * total_volume Sample.volume_uniform.
Proof.
  apply (uniform_stress_total_volume Sample.stress_uniform
           Sample.volume_uniform 30 8 5); reflexivity.
Defined.

(** C7 as stated fails: under the uniform stress 5, one element of volume 2
    and the multiplier 8, the raw value is 2 and not 8 * 2. *)
Lemma uniform_stress_raw_is_unscaled :
  exists smax raw,
    s_mises_max Sample.stress_uniform = Ok smax
    /\ v_eqv_raw weibull_modulus smax Sample.stress_uniform
         Sample.volume_uniform = Ok raw
    /\ constant_stress 5 Sample.stress_uniform = true
    /\ valid_input Sample.stress_uniform Sample.volume_uniform = true
    /\ ~ raw == symmetry_multiplier * total_volume Sample.volume_uniform.
Proof.
  eexists. eexists. split; [vm_compute; reflexivity|].
  split; [vm_compute; reflexivity|].
  split; [reflexivity|]. split; [reflexivity|].
  vm_compute. discriminate.
Qed.

(** C8: on a valid input, for positive moduli [m1 <= m2], the raw value at
    [m2] is at most the raw value at [m1]. *)
Theorem v_eqv_raw_antitone (stress : stress_dict) (volume : volume_dict)
    (m1 m2 : Z) :
  valid_input stress volume = true ->
  (0 < m1)%Z ->
  (m1 <= m2)%Z ->
  exists smax raw1 raw2,
    s_mises_max stress = Ok smax
    /\ v_eqv_raw m1 smax stress volume = Ok raw1
    /\ v_eqv_raw m2 smax stress volume = Ok raw2
    /\ raw2 <= raw1.
Proof.
  intros Hv H1 H2.
  destruct (compute_ok stress volume m1 1
              (valid_nonempty _ _ Hv) (valid_has_points _ _ Hv)
              (valid_subset _ _ Hv))
    as (smax & raw1 & Hmax & Hglob & Hraw1 & Hsum1 & _).
  destruct (v_eqv_loop_ok m2 smax stress volume 0 (valid_subset _ _ Hv))
    as (raw2 & Hraw2 & Hsum2).
  exists smax, raw1, raw2. repeat split; try assumption.
  rewrite Hsum1, Hsum2, Qplus_0_l. unfold loop_sum.
  apply Qsum_map_le. intros [e v] Hin. simpl.
  destruct (valid_entry _ _ Hv smax e v Hglob Hin) as (_ & Hr & Hpos).
  apply v_eqv_e_antitone; auto. now apply Qlt_le_weak.
Qed.

Lemma v_eqv_raw_antitone_witness :
  exists smax raw1 raw2,
    s_mises_max Sample.stress = Ok smax
    /\ v_eqv_raw 1 smax Sample.stress Sample.volume = Ok raw1
    /\ v_eqv_raw 30 smax Sample.stress Sample.volume = Ok raw2
    /\ raw2 <= raw1.
Proof.
  apply (v_eqv_raw_antitone Sample.stress Sample.volume 1 30);
    [reflexivity | lia | lia].
Defined.

(** ** The worked example *)

(** C9: with element A of stresses [10, 20] and volume 4 and element B of
    stress [20] and volume 3, the maximum is 20; with modulus 1 each element
    contributes 3, the raw value is 6, and with the symmetry factor 8 the
    returned [v_eqv] is 48. *)
Theorem worked_example :
  s_mises_max Sample.stress = Ok 20
  /\ v_eqv_e 1 20 [10; 20] 4 == 3
  /\ v_eqv_e 1 20 [20] 3 == 3
  /\ (exists raw, v_eqv_raw 1 20 Sample.stress Sample.volume = Ok raw
                  /\ raw == 6)
  /\ (exists o, compute_equivalent_volume Sample.stress Sample.volume 1 8
                = Ok o
                /\ s_max o = 20 /\ v_eqv o == 48).
Proof.
  split; [reflexivity|].
  split; [vm_compute; reflexivity|].
  split; [vm_compute; reflexivity|].
  split.
  - eexists. split; [vm_compute; reflexivity | vm_compute; reflexivity].
  - eexists. split; [vm_compute; reflexivity|].
    split; [reflexivity | vm_compute; reflexivity].
Qed.

(** ** Scaling every stress *)

Section Scaling.

Variable k : Q.
Hypothesis Hk : 0 < k.












End Scaling.



(** ** Elements that only the stress dict has *)

Section StressOnly.

Lemma dict_get_app_l {V : Type} (d d' : list (eid * V)) (k : eid) :
  mem k (keys d) = true -> dict_get (d ++ d') k = dict_get d k.
Proof.
  induction d as [|[k' v] d IH]; simpl; [discriminate|].
  destruct (Z.eqb k k'); simpl; [reflexivity | exact IH].
Qed.

Lemma keys_app {V : Type} (d d' : list (eid * V)) :
  keys (d ++ d') = keys d ++ keys d'.
Proof. apply map_app. Qed.

Lemma subsetb_app_r (l l1 l2 : list eid) :
  subsetb l l1 = true -> subsetb l (l1 ++ l2) = true.
Proof.
  rewrite !subsetb_spec. intros H e He. apply in_or_app. left. now apply H.
Qed.

Lemma all_points_app (d d' : stress_dict) :
  all_points (d ++ d') = all_points d ++ all_points d'.
Proof. unfold all_points, values. now rewrite map_app, concat_app. Qed.

Lemma has_points_app (d d' : stress_dict) :
  has_points (d ++ d') = has_points d && has_points d'.
Proof. unfold has_points, values. now rewrite map_app, forallb_app. Qed.

Lemma strict_subset_nonempty (stress : stress_dict) (volume : volume_dict) :
  strict_subset_keys stress volume = true -> nonempty stress = true.
Proof.
  unfold strict_subset_keys. destruct stress; [|reflexivity].
  simpl. now rewrite andb_false_r.
Qed.

Lemma v_eqv_e_rescale (m : Z) (smax x : Q) (s : list Q) (v : Q) :
  ~ smax == 0 -> ~ x == 0 ->
  v_eqv_e m x s v == (smax / x) ^ m * v_eqv_e m smax s v.
Proof.
  intros Hs Hx. rewrite !v_eqv_e_spec. unfold spec_contribution.
  rewrite <- Qsum_map_scale. apply Qsum_map_ext. intros y _.
  setoid_replace (y / x) with ((smax / x) * (y / smax)) by (field; auto).
  rewrite Qmult_power. ring.
Qed.

End StressOnly.

(** C10: when the key set of the volume dict is a strict subset of the key
    set of the stress dict (and every element has an integration point), the
    cells return an outcome.  The returned maximum is the maximum over ALL
    elements of the stress dict, while [v_eqv] sums one term per entry of the
    volume dict only.  Appending a stress-only element whose largest stress
    exceeds the previous maximum changes the outcome: the returned maximum
    becomes the new value, and [v_eqv] is rescaled by
    [(old maximum / new maximum)^m] when the old maximum is positive. *)
Theorem stress_only_elements (stress : stress_dict) (volume : volume_dict)
    (m : Z) (symmetry_factor : Q) :
  strict_subset_keys stress volume = true ->
  has_points stress = true ->
  exists o,
    compute_equivalent_volume stress volume m symmetry_factor = Ok o
    /\ is_global_max stress (s_max o)
    /\ v_eqv o
       == symmetry_factor
          * Qsum (map (fun ev => spec_contribution m (s_max o)
                                   (stress_of stress (fst ev)) (snd ev))
                      volume)
    /\ forall (e : eid) (s : list Q) (x : Q),
         ~ In e (keys stress) ->
         np_max s = Ok x ->
         s_max o < x ->
         exists o',
           compute_equivalent_volume (stress ++ [(e, s)]) volume m
             symmetry_factor = Ok o'
           /\ s_max o' == x
           /\ ~ outcome_eq o' o
           /\ (0 < s_max o -> v_eqv o' == (s_max o / x) ^ m * v_eqv o).
Proof.
  intros Hstrict Hp.
  pose proof (strict_subset_nonempty _ _ Hstrict) as Hne.
  assert (Hsub : subsetb (keys volume) (keys stress) = true).
  { unfold strict_subset_keys in Hstrict. apply andb_prop in Hstrict. tauto. }
  destruct (compute_ok stress volume m symmetry_factor Hne Hp Hsub)
    as (smax & raw & Hmax & Hglob & Hraw & Hsum & Hrun).
  eexists. split; [exact Hrun|]. simpl. split; [exact Hglob|]. split.
  { rewrite Hsum. unfold loop_sum.
    rewrite (Qsum_map_ext _ (fun ev => spec_contribution m smax
                               (stress_of stress (fst ev)) (snd ev))).
    - ring.
    - intros ev _. apply v_eqv_e_spec. }
  intros e s x Hnew Hx Hgt.
  destruct (np_max_ok _ _ Hx) as [Hxin Hxmax].
  assert (Hne' : nonempty (stress ++ [(e, s)]) = true).
  { destruct stress; [discriminate | reflexivity]. }
  assert (Hp' : has_points (stress ++ [(e, s)]) = true).
  { rewrite has_points_app, Hp. unfold has_points. simpl.
    destruct s; [discriminate | reflexivity]. }
  assert (Hsub' : subsetb (keys volume) (keys (stress ++ [(e, s)])) = true).
  { rewrite keys_app. now apply subsetb_app_r. }
  destruct (compute_ok (stress ++ [(e, s)]) volume m symmetry_factor
              Hne' Hp' Hsub')
    as (smax' & raw' & _ & Hglob' & _ & Hsum' & Hrun').
  assert (Hpoints : all_points (stress ++ [(e, s)]) = all_points stress ++ s).
  { rewrite all_points_app. unfold all_points at 2. simpl.
    now rewrite app_nil_r. }
  destruct Hglob' as [Hin' Hmax']. rewrite Hpoints in Hin', Hmax'.
  assert (Hx_le : x <= smax').
  { apply Hmax'. apply in_or_app. now right. }
  assert (Heq : smax' == x).
  { apply Qle_antisym; [|exact Hx_le].
    apply in_app_or in Hin'. destruct Hin' as [Hin'|Hin'].
    - exfalso. apply (Qlt_not_le _ _ Hgt).
      apply Qle_trans with smax'; [exact Hx_le | now apply Hglob].
    - now apply Hxmax. }
  eexists. split; [exact Hrun'|]. simpl. split; [exact Heq|]. split.
  - unfold outcome_eq. simpl. intros [_ E]. rewrite Heq in E.
    rewrite E in Hgt. now apply Qlt_irrefl in Hgt.
  - intros Hpos.
    assert (Hs0 : ~ smax == 0).
    { intros E. rewrite E in Hpos. now apply Qlt_irrefl in Hpos. }
    assert (Hx0 : ~ smax' == 0).
    { intros E. rewrite Heq in E. rewrite E in Hgt.
      apply (Qlt_not_le _ _ Hgt). now apply Qlt_le_weak. }
    rewrite Hsum', Hsum. unfold loop_sum.
    rewrite <- Heq.
    setoid_replace ((smax / smax') ^ m
                    * (Qsum (map (fun ev => v_eqv_e m smax
                                   (stress_of stress (fst ev)) (snd ev))
                                 volume) * symmetry_factor))
      with ((smax / smax') ^ m
            * Qsum (map (fun ev => v_eqv_e m smax
                                     (stress_of stress (fst ev)) (snd ev))
                        volume) * symmetry_factor) by ring.
    rewrite <- Qsum_map_scale.
    apply Qmult_comp; [|reflexivity].
    apply Qsum_map_ext. intros [e' v] Hin. simpl.
    assert (He' : mem e' (keys stress) = true).
    { apply mem_In. apply (subsetb_spec (keys volume)); [exact Hsub|].
      apply (in_map fst) in Hin. exact Hin. }
    unfold stress_of at 1. rewrite (dict_get_app_l _ _ _ He').
    fold (stress_of stress e'). now apply v_eqv_e_rescale.
Qed.

Lemma stress_only_elements_witness :
  exists o,
    compute_equivalent_volume Sample.stress Sample.volume_single 30 8 = Ok o
    /\ is_global_max Sample.stress (s_max o)
    /\ v_eqv o
       == 8 * Qsum (map (fun ev => spec_contribution 30 (s_max o)
                                     (stress_of Sample.stress (fst ev))
                                     (snd ev))
                        Sample.volume_single)
    /\ forall (e : eid) (s : list Q) (x : Q),
         ~ In e (keys Sample.stress) ->
         np_max s = Ok x ->
         s_max o < x ->
         exists o',
           compute_equivalent_volume (Sample.stress ++ [(e, s)])
             Sample.volume_single 30 8 = Ok o'
           /\ s_max o' == x
           /\ ~ outcome_eq o' o
           /\ (0 < s_max o -> v_eqv o' == (s_max o / x) ^ 30 * v_eqv o).
Proof.
  apply (stress_only_elements Sample.stress Sample.volume_single 30 8);
    reflexivity.
Defined.

(** The stress-only element C with stress 40 on top of the sample data: the
    run completes, the maximum moves from 20 to 40 and [v_eqv] changes. *)
Example stress_only_sample :
  exists o o',
    compute_equivalent_volume Sample.stress Sample.volume_single 1 8 = Ok o
    /\ compute_equivalent_volume
         (Sample.stress ++ [(Sample.elem_C, Sample.stress_extra)])
         Sample.volume_single 1 8 = Ok o'
    /\ s_max o == 20 /\ s_max o' == 40
    /\ v_eqv o == 6 /\ v_eqv o' == 3.
Proof.
  eexists. eexists. split; [vm_compute; reflexivity|].
  split; [vm_compute; reflexivity|].
  repeat split; vm_compute; reflexivity.
Qed.

(** * Further properties of the notebook's code *)

(** ** The float comparison helper [isclose] *)

Section IsClose.

(** With the difference [x - value] taken exactly, [isclose] holds on the
    closed interval [[value - tol, value + tol]] and nowhere else. *)
Lemma isclose_iff_interval (x value tol : Q) :
  isclose x value tol = true <-> value - tol <= x /\ x <= value + tol.
Proof.
  unfold isclose. rewrite Qle_bool_iff, Qabs_Qle_condition. split.
  - intros [H1 H2]. split.
    + apply (Qplus_le_l _ _ (- value)).
      setoid_replace (value - tol + - value) with (- tol) by ring. exact H1.
    + apply (Qplus_le_l _ _ (- value)).
      setoid_replace (value + tol + - value) with tol by ring. exact H2.
  - intros [H1 H2]. split.
    + apply (Qplus_le_l _ _ value).
      setoid_replace (x - value + value) with x by ring.
      setoid_replace (- tol + value) with (value - tol) by ring. exact H1.
    + apply (Qplus_le_l _ _ value).
      setoid_replace (x - value + value) with x by ring.
      setoid_replace (tol + value) with (value + tol) by ring. exact H2.
Qed.

Lemma isclose_swap (x value tol : Q) :
  isclose x value tol = isclose value x tol.
Proof.
  unfold isclose. apply eq_true_iff_eq. rewrite !Qle_bool_iff.
  now rewrite (Qabs_Qminus x value).
Qed.

Lemma isclose_add (x y z t1 t2 : Q) :
  isclose x y t1 = true -> isclose y z t2 = true ->
  isclose x z (t1 + t2) = true.
Proof.
  unfold isclose. rewrite !Qle_bool_iff. intros H1 H2.
  setoid_replace (x - z) with ((x - y) + (y - z)) by ring.
  apply Qle_trans with (Qabs (x - y) + Qabs (y - z)).
  - apply Qabs_triangle.
  - now apply Qplus_le_compat.
Qed.

Lemma isclose_zero_iff (x tol : Q) :
  isclose x 0 tol = true <-> - tol <= x /\ x <= tol.
Proof.
  rewrite isclose_iff_interval.
  setoid_replace (0 - tol) with (- tol) by ring.
  setoid_replace (0 + tol) with tol by ring. reflexivity.
Qed.

(** A number that lies in [[value - tol, value + tol]] (the bounds taken as
    exact numbers) is close to [value].  Against the value 0, as the three
    symmetry sets use it, the converse holds too: [isclose(x, 0, tol)] is
    true exactly when [-tol <= x <= tol]. *)
Theorem isclose_within (x value tol : Q) :
  (value - tol <= x /\ x <= value + tol -> isclose x value tol = true)
  /\ (isclose x 0 tol = true <-> - tol <= x /\ x <= tol).
Proof.
  split.
  - apply isclose_iff_interval.
  - apply isclose_zero_iff.
Qed.

(** The two compared numbers can be swapped. *)
Theorem isclose_sym (x value tol : Q) :
  isclose x value tol = isclose value x tol.
Proof.
  unfold isclose. apply eq_true_iff_eq. rewrite !Qle_bool_iff.
  now rewrite (Qabs_Qminus x value).
Qed.

(** A number is close to itself exactly when the tolerance is not negative;
    under a negative tolerance nothing is close to anything. *)
Theorem isclose_tolerance_sign (tol : Q) :
  (forall x, isclose x x tol = true <-> 0 <= tol)
  /\ (tol < 0 -> forall x value, isclose x value tol = false).
Proof.
  split.
  - intros x. unfold isclose. rewrite Qle_bool_iff.
    setoid_replace (x - x) with 0 by ring. reflexivity.
  - intros Hneg x value. unfold isclose.
    destruct (Qle_bool (Qabs (x - value)) tol) eqn:E; [|reflexivity].
    apply Qle_bool_iff in E. exfalso. apply (Qlt_not_le _ _ Hneg).
    apply Qle_trans with (Qabs (x - value)); [apply Qabs_nonneg | exact E].
Qed.

(** In exact arithmetic (the differences and the sum [t1 + t2] taken
    without rounding) tolerances add up along a chain; closeness itself is
    not transitive. *)
Theorem isclose_chain (x y z t1 t2 : Q) :
  isclose x y t1 = true -> isclose y z t2 = true ->
  isclose x z (t1 + t2) = true.
Proof.
  unfold isclose. rewrite !Qle_bool_iff. intros H1 H2.
  setoid_replace (x - z) with ((x - y) + (y - z)) by ring.
  apply Qle_trans with (Qabs (x - y) + Qabs (y - z)).
  - apply Qabs_triangle.
  - now apply Qplus_le_compat.
Qed.

Lemma isclose_chain_witness :
  isclose 0 (1 # 100000) (default_tol + default_tol) = true.
Proof.
  apply (isclose_chain 0 (1 # 200000) (1 # 100000) default_tol default_tol);
    reflexivity.
Defined.

(** With the default tolerance the chain really leaves the tolerance:
    closeness is not transitive. *)
Example isclose_not_transitive :
  isclose 0 (1 # 100000) default_tol = true
  /\ isclose (1 # 100000) (2 # 100000) default_tol = true
  /\ isclose 0 (2 # 100000) default_tol = false.
Proof. repeat split. Qed.

End IsClose.

(** ** The node sets for the symmetry planes and the load face *)

Section NodeSets.

Lemma nodes_close_In (i : index) (value : Q) (nodes : node_dict) (n : eid) :
  In n (nodes_close i value nodes) <->
  exists c, In (n, c) nodes /\ isclose (c_at i c) value default_tol = true.
Proof.
  unfold nodes_close, keys. rewrite in_map_iff. split.
  - intros ([n' c] & E & Hin). simpl in E. subst n'.
    apply filter_In in Hin. destruct Hin as [Hin Hc]. exists c. auto.
  - intros (c & Hin & Hc). exists (n, c). split; [reflexivity|].
    apply filter_In. auto.
Qed.

(** A node id is put into a symmetry set ([nx0], [ny0], [nz0]: the tested
    value is 0) exactly when the mesh has that node and its coordinate in the
    tested direction lies between [-tol] and [tol], [tol] being the float64
    number [1e-5]. *)
Theorem symmetry_set_member (i : index) (nodes : node_dict) (n : eid) :
  In n (nodes_close i 0 nodes) <->
  exists c, In (n, c) nodes
            /\ - default_tol <= c_at i c
            /\ c_at i c <= default_tol.
Proof.
  rewrite nodes_close_In. split; intros (c & Hin & Hc); exists c;
    (split; [exact Hin|]); now apply isclose_zero_iff.
Qed.

Lemma keys_filter_NoDup {V : Type} (f : eid * V -> bool)
    (d : list (eid * V)) :
  NoDup (keys d) -> NoDup (keys (filter f d)).
Proof.
  unfold keys. induction d as [|[k v] d IH]; simpl; intros H.
  - constructor.
  - inversion H as [|? ? Hn Hd]; subst.
    destruct (f (k, v)); simpl; [|now apply IH].
    constructor; [|now apply IH].
    intros Hin. apply Hn. apply in_map_iff in Hin.
    destruct Hin as ([k' v'] & E & Hin). simpl in E. subst k'.
    apply filter_In in Hin. apply in_map_iff. exists (k, v'). tauto.
Qed.

(** The set lists every selected node once, and only ids of the mesh. *)
Theorem nodes_close_nodup (i : index) (value : Q) (nodes : node_dict) :
  nodupb (keys nodes) = true ->
  NoDup (nodes_close i value nodes)
  /\ incl (nodes_close i value nodes) (keys nodes).
Proof.
  intros Hn. split.
  - unfold nodes_close. apply keys_filter_NoDup. now apply nodupb_NoDup.
  - intros n Hin. apply nodes_close_In in Hin. destruct Hin as (c & Hin & _).
    apply (in_map fst) in Hin. exact Hin.
Qed.

Lemma nodes_close_nodup_witness :
  NoDup (nodes_close I1 0 MeshSample.nodes)
  /\ incl (nodes_close I1 0 MeshSample.nodes) (keys MeshSample.nodes).
Proof.
  apply (nodes_close_nodup I1 0 MeshSample.nodes). reflexivity.
Defined.

Lemma nodes_close_disjoint (i : index) (a b : Q) (nodes : node_dict)
    (n : eid) :
  nodupb (keys nodes) = true ->
  default_tol + default_tol < Qabs (a - b) ->
  In n (nodes_close i a nodes) -> ~ In n (nodes_close i b nodes).
Proof.
  intros Hn Hfar Ha Hb.
  apply nodes_close_In in Ha. destruct Ha as (c & Hin & Hca).
  apply nodes_close_In in Hb. destruct Hb as (c' & Hin' & Hcb).
  assert (E : c' = c).
  { pose proof (dict_get_nodup _ _ _ Hn Hin) as G.
    pose proof (dict_get_nodup _ _ _ Hn Hin') as G'. congruence. }
  subst c'. rewrite isclose_swap in Hca.
  pose proof (isclose_add _ _ _ _ _ Hca Hcb) as Hab.
  unfold isclose in Hab. apply Qle_bool_iff in Hab.
  apply (Qlt_not_le _ _ Hfar Hab).
Qed.

(** The load set and the set of the symmetry plane [y = 0] share no node as
    soon as the specimen is longer than four tolerances ([tol] being the
    float64 number [1e-5]). *)
Theorem load_set_disjoint_from_sym_y (l_n : Q) (nodes : node_dict) (n : eid) :
  nodupb (keys nodes) = true ->
  4 * default_tol < Qabs l_n ->
  In n (nload l_n nodes) -> ~ In n (ny0 nodes).
Proof.
  intros Hn Hlen. unfold nload, ny0. apply nodes_close_disjoint; [exact Hn|].
  setoid_replace (l_n / 2 - 0) with (l_n * (1 # 2)) by field.
  rewrite Qabs_Qmult.
  setoid_replace (default_tol + default_tol)
    with (4 * default_tol * (1 # 2)) by ring.
  apply Qmult_lt_compat_r; [reflexivity | exact Hlen].
Qed.

Lemma load_set_disjoint_from_sym_y_witness :
  ~ In 3%Z (ny0 MeshSample.nodes).
Proof.
  apply (load_set_disjoint_from_sym_y 100 MeshSample.nodes 3%Z);
    [reflexivity | reflexivity | vm_compute; auto].
Defined.

(** What the four comprehensions give on the sample mesh. *)
Example node_sets_sample :
  nx0 MeshSample.nodes = [1%Z; 3%Z]
  /\ ny0 MeshSample.nodes = [1%Z; 2%Z]
  /\ nz0 MeshSample.nodes = [1%Z; 2%Z; 3%Z; 4%Z]
  /\ nload 100 MeshSample.nodes = [3%Z; 4%Z].
Proof. repeat split. Qed.

End NodeSets.

(** ** More on the two post-processing cells *)

Section CellsMore.

Lemma compute_Ok_inv (stress : stress_dict) (volume : volume_dict) (m : Z)
    (sym : Q) (o : outcome) :
  compute_equivalent_volume stress volume m sym = Ok o ->
  nonempty stress = true /\ has_points stress = true
  /\ subsetb (keys volume) (keys stress) = true.
Proof.
  intros H.
  destruct (nonempty stress && has_points stress) eqn:E.
  - apply andb_prop in E. destruct E as [Hne Hp].
    destruct (subsetb (keys volume) (keys stress)) eqn:Hsub; [auto|].
    destruct (compute_raise_key stress volume m sym Hne Hp Hsub)
      as (e & He & _).
    congruence.
  - rewrite (compute_raise_value stress volume m sym E) in H. discriminate.
Qed.

Lemma compute_Ok_parts (stress : stress_dict) (volume : volume_dict) (m : Z)
    (sym : Q) (o : outcome) :
  compute_equivalent_volume stress volume m sym = Ok o ->
  is_global_max stress (s_max o)
  /\ v_eqv o == loop_sum m (s_max o) stress volume * sym.
Proof.
  intros H. destruct (compute_Ok_inv _ _ _ _ _ H) as (Hne & Hp & Hsub).
  destruct (compute_ok stress volume m sym Hne Hp Hsub)
    as (smax & raw & _ & Hglob & _ & Hsum & Hrun).
  rewrite Hrun in H. injection H as <-. simpl. split; [exact Hglob|].
  now rewrite Hsum.
Qed.

Lemma v_eqv_loop_first_missing (m : Z) (smax : Q) (s_mises : stress_dict)
    (items : volume_dict) (acc : Q) (err : exn) :
  v_eqv_loop m smax s_mises items acc = Raise err ->
  exists pre e v post,
    err = KeyError e
    /\ items = pre ++ (e, v) :: post
    /\ subsetb (keys pre) (keys s_mises) = true
    /\ mem e (keys s_mises) = false.
Proof.
  revert acc. induction items as [|[e v] rest IH]; intros acc; simpl.
  - discriminate.
  - destruct (mem e (keys s_mises)) eqn:He.
    + destruct (dict_get_mem _ _ He) as (s & Hs & _). rewrite Hs. simpl.
      intros H. destruct (IH _ H) as (pre & e' & v' & post & E1 & E2 & E3 & E4).
      exists ((e, v) :: pre), e', v', post. subst. simpl.
      rewrite He, E3. auto.
    + rewrite (dict_get_not_mem _ _ He). simpl. intros [= <-].
      exists [], e, v, rest. auto.
Qed.

(** A [KeyError] names the first element id, in the iteration order of the
    volume dict, that the stress dict does not have. *)
Theorem key_error_names_first_missing (stress : stress_dict)
    (volume : volume_dict) (m : Z) (symmetry_factor : Q) (e : eid) :
  compute_equivalent_volume stress volume m symmetry_factor
  = Raise (KeyError e) ->
  exists pre v post,
    volume = pre ++ (e, v) :: post
    /\ (forall k, In k (keys pre) -> In k (keys stress))
    /\ ~ In e (keys stress).
Proof.
  unfold compute_equivalent_volume, v_eqv_raw.
  destruct (s_mises_max stress) as [smax|err] eqn:Hmax; simpl.
  - destruct (v_eqv_loop m smax stress volume 0) as [raw|err] eqn:Hloop;
      simpl; [discriminate|].
    intros [= ->].
    destruct (v_eqv_loop_first_missing _ _ _ _ _ _ Hloop)
      as (pre & e' & v & post & [= <-] & E2 & E3 & E4).
    exists pre, v, post. split; [exact E2|]. split.
    + now apply subsetb_spec.
    + now apply mem_false.
  - intros [= ->]. exfalso.
    destruct (nonempty stress && has_points stress) eqn:E.
    + apply andb_prop in E. destruct E as [Hne Hp].
      destruct (s_mises_max_ok stress Hne Hp) as (r & Hr & _). congruence.
    + rewrite (s_mises_max_raise stress E) in Hmax. discriminate.
Qed.

Lemma key_error_names_first_missing_witness :
  exists pre v post,
    DictSample.volume_unknown = pre ++ (3%Z, v) :: post
    /\ (forall k, In k (keys pre) -> In k (keys Sample.stress))
    /\ ~ In 3%Z (keys Sample.stress).
Proof.
  apply (key_error_names_first_missing Sample.stress
           DictSample.volume_unknown 30 8 3%Z).
  reflexivity.
Defined.

(** The iteration order of the volume dict does not matter: a reordered
    volume dict gives the same maximum and an equal [v_eqv]. *)
Theorem volume_order_irrelevant (stress : stress_dict)
    (volume volume' : volume_dict) (m : Z) (symmetry_factor : Q)
    (o : outcome) :
  Permutation volume volume' ->
  compute_equivalent_volume stress volume m symmetry_factor = Ok o ->
  exists o',
    compute_equivalent_volume stress volume' m symmetry_factor = Ok o'
    /\ v_eqv o' == v_eqv o
    /\ s_max o' = s_max o.
Proof.
  intros Hperm H.
  destruct (compute_Ok_inv _ _ _ _ _ H) as (Hne & Hp & Hsub).
  destruct (compute_ok stress volume m symmetry_factor Hne Hp Hsub)
    as (smax & raw & Hmax & _ & _ & Hsum & Hrun).
  rewrite Hrun in H. injection H as <-.
  assert (Hsub' : subsetb (keys volume') (keys stress) = true).
  { apply subsetb_spec. intros k Hk. apply (subsetb_spec (keys volume));
      [exact Hsub|].
    apply (Permutation_in k (Permutation_map fst (Permutation_sym Hperm))).
    exact Hk. }
  destruct (v_eqv_loop_ok m smax stress volume' 0 Hsub')
    as (raw' & Hraw' & Hsum').
  exists (mkOutcome (raw' * symmetry_factor) smax). simpl.
  split; [|split; [|reflexivity]].
  - unfold compute_equivalent_volume, v_eqv_raw. rewrite Hmax. simpl.
    now rewrite Hraw'.
  - rewrite Hsum', Hsum, Qplus_0_l. unfold loop_sum.
    now rewrite (Qsum_map_perm _ _ _ Hperm).
Qed.

Lemma volume_order_irrelevant_witness :
  exists o',
    compute_equivalent_volume Sample.stress DictSample.volume_swapped 1 8
    = Ok o'
    /\ v_eqv o' == v_eqv DictSample.outcome_m1
    /\ s_max o' = s_max DictSample.outcome_m1.
Proof.
  apply (volume_order_irrelevant Sample.stress Sample.volume
           DictSample.volume_swapped 1 8 DictSample.outcome_m1).
  - apply perm_swap.
  - reflexivity.
Defined.

End CellsMore.

Section DictOrder.

Lemma NoDup_nodupb (l : list eid) : NoDup l -> nodupb l = true.
Proof.
  induction 1 as [|e l Hn _ IH]; simpl; [reflexivity|].
  rewrite IH, andb_true_r. apply negb_true_iff. now apply mem_false.
Qed.

Lemma all_points_In (stress : stress_dict) (x : Q) :
  In x (all_points stress) <-> exists e s, In (e, s) stress /\ In x s.
Proof.
  unfold all_points, values. rewrite in_concat. split.
  - intros (s & Hs & Hx). apply in_map_iff in Hs.
    destruct Hs as ([e s'] & E & Hin). simpl in E. subst s'.
    exists e, s. auto.
  - intros (e & s & Hin & Hx). exists s. split; [|exact Hx].
    apply (in_map snd) in Hin. exact Hin.
Qed.

Lemma all_points_perm (stress stress' : stress_dict) (x : Q) :
  Permutation stress stress' ->
  In x (all_points stress) -> In x (all_points stress').
Proof.
  intros Hperm Hx. apply all_points_In in Hx.
  destruct Hx as (e & s & Hin & Hx). apply all_points_In. exists e, s.
  split; [|exact Hx]. now apply (Permutation_in _ Hperm).
Qed.

Lemma has_points_perm (stress stress' : stress_dict) :
  Permutation stress stress' ->
  has_points stress = true -> has_points stress' = true.
Proof.
  unfold has_points, values. rewrite !forallb_forall. intros Hperm H s Hs.
  apply H.
  apply (Permutation_in s (Permutation_map snd (Permutation_sym Hperm))).
  exact Hs.
Qed.

Lemma stress_of_perm (stress stress' : stress_dict) (e : eid) :
  nodupb (keys stress) = true -> Permutation stress stress' ->
  In e (keys stress) -> stress_of stress' e = stress_of stress e.
Proof.
  intros Hn Hperm He.
  pose proof (stress_of_In _ _ He) as Hin.
  apply (Permutation_in _ Hperm) in Hin.
  apply stress_of_nodup; [|exact Hin].
  apply NoDup_nodupb.
  apply (Permutation_NoDup (Permutation_map fst Hperm)).
  now apply nodupb_NoDup.
Qed.

Lemma v_eqv_e_smax_eq (m : Z) (smax smax' : Q) (s : list Q) (v : Q) :
  smax == smax' -> v_eqv_e m smax s v == v_eqv_e m smax' s v.
Proof.
  intros E. rewrite !v_eqv_e_spec. unfold spec_contribution.
  apply Qsum_map_ext. intros x _. now rewrite E.
Qed.

End DictOrder.

(** The iteration order of the stress dict does not matter either: a
    reordered stress dict gives an equal maximum and an equal [v_eqv]. *)
Theorem stress_order_irrelevant (stress stress' : stress_dict)
    (volume : volume_dict) (m : Z) (symmetry_factor : Q) (o : outcome) :
  nodupb (keys stress) = true ->
  Permutation stress stress' ->
  compute_equivalent_volume stress volume m symmetry_factor = Ok o ->
  exists o',
    compute_equivalent_volume stress' volume m symmetry_factor = Ok o'
    /\ v_eqv o' == v_eqv o
    /\ s_max o' == s_max o.
Proof.
  intros Hn Hperm H.
  destruct (compute_Ok_inv _ _ _ _ _ H) as (Hne & Hp & Hsub).
  destruct (compute_Ok_parts _ _ _ _ _ H) as (Hglob & Hv).
  assert (Hne' : nonempty stress' = true).
  { destruct stress' as [|p t]; [|reflexivity].
    apply Permutation_sym, Permutation_nil in Hperm. subst. discriminate. }
  assert (Hsub' : subsetb (keys volume) (keys stress') = true).
  { apply subsetb_spec. intros k Hk.
    apply (Permutation_in k (Permutation_map fst Hperm)).
    now apply (subsetb_spec (keys volume)). }
  destruct (compute_ok stress' volume m symmetry_factor Hne'
              (has_points_perm _ _ Hperm Hp) Hsub')
    as (smax' & raw' & _ & Hglob' & _ & Hsum' & Hrun').
  assert (Heq : smax' == s_max o).
  { apply Qle_antisym.
    - apply Hglob. apply (all_points_perm stress' stress);
        [now apply Permutation_sym | apply Hglob'].
    - apply Hglob'. apply (all_points_perm stress stress');
        [exact Hperm | apply Hglob]. }
  eexists. split; [exact Hrun'|]. simpl. split; [|exact Heq].
  rewrite Hv, Hsum'. apply Qmult_comp; [|reflexivity].
  unfold loop_sum. apply Qsum_map_ext. intros [e v] Hin. simpl.
  rewrite (stress_of_perm stress stress' e Hn Hperm).
  - now apply v_eqv_e_smax_eq.
  - apply (subsetb_spec (keys volume)); [exact Hsub|].
    apply (in_map fst) in Hin. exact Hin.
Qed.

Lemma stress_order_irrelevant_witness :
  exists o',
    compute_equivalent_volume DictSample.stress_swapped Sample.volume 1 8
    = Ok o'
    /\ v_eqv o' == v_eqv DictSample.outcome_m1
    /\ s_max o' == s_max DictSample.outcome_m1.
Proof.
  apply (stress_order_irrelevant Sample.stress DictSample.stress_swapped
           Sample.volume 1 8 DictSample.outcome_m1).
  - reflexivity.
  - apply perm_swap.
  - reflexivity.
Defined.

Section VolumeScale.

Lemma keys_scale_volume (c : Q) (volume : volume_dict) :
  keys (scale_volume c volume) = keys volume.
Proof. unfold keys, scale_volume. now rewrite map_map. Qed.

Lemma v_eqv_e_scale_volume (m : Z) (smax : Q) (s : list Q) (c v : Q) :
  v_eqv_e m smax s (c * v) == c * v_eqv_e m smax s v.
Proof.
  rewrite !v_eqv_e_spec. unfold spec_contribution.
  rewrite <- Qsum_map_scale. apply Qsum_map_ext. intros x _.
  unfold Qdiv. ring.
Qed.

Lemma loop_sum_scale_volume (m : Z) (smax : Q) (stress : stress_dict)
    (c : Q) (volume : volume_dict) :
  loop_sum m smax stress (scale_volume c volume)
  == c * loop_sum m smax stress volume.
Proof.
  unfold loop_sum, scale_volume. rewrite map_map. simpl.
  rewrite <- Qsum_map_scale. apply Qsum_map_ext. intros [e v] _. simpl.
  apply v_eqv_e_scale_volume.
Qed.

End VolumeScale.

(** In exact arithmetic [v_eqv] is proportional to the volumes: multiplying
    every element volume by [c] multiplies the result by [c] (in float64 up
    to rounding); the maximum is left alone. *)
Theorem volume_scaling (stress : stress_dict) (volume : volume_dict) (m : Z)
    (symmetry_factor c : Q) (o : outcome) :
  compute_equivalent_volume stress volume m symmetry_factor = Ok o ->
  exists o',
    compute_equivalent_volume stress (scale_volume c volume) m
      symmetry_factor = Ok o'
    /\ v_eqv o' == c * v_eqv o
    /\ s_max o' = s_max o.
Proof.
  intros H.
  destruct (compute_Ok_inv _ _ _ _ _ H) as (Hne & Hp & Hsub).
  destruct (compute_ok stress volume m symmetry_factor Hne Hp Hsub)
    as (smax & raw & Hmax & _ & _ & Hsum & Hrun).
  rewrite Hrun in H. injection H as <-.
  assert (Hsub' : subsetb (keys (scale_volume c volume)) (keys stress)
                  = true).
  { now rewrite keys_scale_volume. }
  destruct (compute_ok stress (scale_volume c volume) m symmetry_factor
              Hne Hp Hsub')
    as (smax' & raw' & Hmax' & _ & _ & Hsum' & Hrun').
  assert (E : smax' = smax) by congruence. subst smax'.
  eexists. split; [exact Hrun'|]. simpl. split; [|reflexivity].
  rewrite Hsum', Hsum, loop_sum_scale_volume. ring.
Qed.

Lemma volume_scaling_witness :
  exists o',
    compute_equivalent_volume Sample.stress
      (scale_volume (1 # 1000) Sample.volume) 1 8 = Ok o'
    /\ v_eqv o' == (1 # 1000) * v_eqv DictSample.outcome_m1
    /\ s_max o' = s_max DictSample.outcome_m1.
Proof.
  apply (volume_scaling Sample.stress Sample.volume 1 8 (1 # 1000)
           DictSample.outcome_m1).
  reflexivity.
Defined.

Section LowerBound.

Lemma Qsum_map_ge_term {A : Type} (f : A -> Q) (l : list A) (a : A) :
  (forall b, In b l -> 0 <= f b) -> In a l -> f a <= Qsum (map f l).
Proof.
  induction l as [|b l IH]; intros Hpos Hin; [destruct Hin|].
  simpl. destruct Hin as [->|Hin].
  - rewrite <- (Qplus_0_r (f a)) at 1. apply Qplus_le_compat;
      [apply Qle_refl|].
    apply Qsum_map_nonneg. intros c Hc. apply Hpos. now right.
  - rewrite <- (Qplus_0_l (f a)). apply Qplus_le_compat.
    + apply Hpos. now left.
    + apply IH; [|exact Hin]. intros c Hc. apply Hpos. now right.
Qed.

(** The point that carries the maximum contributes its full volume share. *)
Lemma v_eqv_e_ge_share (m : Z) (smax : Q) (s : list Q) (v : Q) :
  0 < smax -> In smax s -> 0 <= v ->
  (forall x, In x s -> 0 <= x / smax) ->
  v / len s <= v_eqv_e m smax s v.
Proof.
  intros Hpos Hin Hv Hr. rewrite v_eqv_e_spec. unfold spec_contribution.
  assert (Hl : 0 < len s).
  { apply len_pos. destruct s; [destruct Hin | reflexivity]. }
  assert (Hvi : 0 <= v / len s).
  { apply Qle_shift_div_l; [exact Hl|]. now rewrite Qmult_0_l. }
  apply Qle_trans with ((smax / smax) ^ m * (v / len s)).
  - setoid_replace (smax / smax) with 1.
    + rewrite Qpower_1, Qmult_1_l. apply Qle_refl.
    + field. intros E. rewrite E in Hpos. now apply Qlt_irrefl in Hpos.
  - apply (Qsum_map_ge_term (fun x => (x / smax) ^ m * (v / len s)));
      [|exact Hin].
    intros x Hx. apply Qmult_le_0_compat; [|exact Hvi].
    apply Qpower_0_le. now apply Hr.
Qed.

End LowerBound.

(** In exact arithmetic the raw value of a valid input is never zero:
    whatever the modulus, it is at least the volume share [V_e / n_e] of an
    element [e] that carries the maximum stress, and that share is positive
    (in float64 a share can underflow to zero). *)
Theorem v_eqv_raw_positive (stress : stress_dict) (volume : volume_dict)
    (m : Z) :
  valid_input stress volume = true ->
  exists smax raw e s v,
    s_mises_max stress = Ok smax
    /\ v_eqv_raw m smax stress volume = Ok raw
    /\ In (e, s) stress /\ In smax s /\ In (e, v) volume
    /\ v / len s <= raw
    /\ 0 < raw.
Proof.
  intros Hv.
  destruct (compute_ok stress volume m 1
              (valid_nonempty _ _ Hv) (valid_has_points _ _ Hv)
              (valid_subset _ _ Hv))
    as (smax & raw & Hmax & Hglob & Hraw & Hsum & _).
  pose proof (valid_max_positive _ _ Hv smax Hglob) as Hpos.
  destruct (proj1 (all_points_In stress smax) (proj1 Hglob))
    as (e & s & Hes & Hin).
  assert (Hek : mem e (keys volume) = true).
  { apply mem_In. pose proof (valid_same_keys _ _ Hv) as Hk.
    unfold same_keys in Hk. apply andb_prop in Hk. destruct Hk as [Hk _].
    apply (subsetb_spec (keys stress)); [exact Hk|].
    apply (in_map fst) in Hes. exact Hes. }
  destruct (dict_get_mem _ _ Hek) as (v & _ & Hev).
  pose proof (valid_dicts _ _ Hv) as Hd. unfold dicts_ok in Hd.
  apply andb_prop in Hd. destruct Hd as [Hds _].
  destruct (valid_entry _ _ Hv smax e v Hglob Hev) as (Hne & Hr & Hvpos).
  rewrite (stress_of_nodup _ _ _ Hds Hes) in Hne, Hr.
  assert (Hshare : v / len s <= raw).
  { rewrite Hsum. unfold loop_sum.
    apply Qle_trans with (v_eqv_e m smax s v).
    - apply v_eqv_e_ge_share; auto; [now apply Qlt_le_weak|].
      intros x Hx. now apply Hr.
    - rewrite <- (stress_of_nodup _ _ _ Hds Hes).
      apply (Qsum_map_ge_term
               (fun ev => v_eqv_e m smax (stress_of stress (fst ev)) (snd ev))
               volume (e, v)); [|exact Hev].
      intros [e' v'] Hin'. simpl.
      destruct (valid_entry _ _ Hv smax e' v' Hglob Hin') as (_ & Hr' & Hp').
      apply v_eqv_e_nonneg; [apply Hr' | now apply Qlt_le_weak]. }
  exists smax, raw, e, s, v. repeat split; try assumption.
  apply Qlt_le_trans with (v / len s); [|exact Hshare].
  apply Qlt_shift_div_l; [now apply len_pos|]. now rewrite Qmult_0_l.
Qed.

Lemma v_eqv_raw_positive_witness :
  exists smax raw e s v,
    s_mises_max Sample.stress = Ok smax
    /\ v_eqv_raw 30 smax Sample.stress Sample.volume = Ok raw
    /\ In (e, s) Sample.stress /\ In smax s /\ In (e, v) Sample.volume
    /\ v / len s <= raw
    /\ 0 < raw.
Proof.
  apply (v_eqv_raw_positive Sample.stress Sample.volume 30). reflexivity.
Defined.

(** With the exponent 0 every weight is 1 (also at a zero stress, as for
    [**0] in Python), so in exact arithmetic the cells return the plain
    volume sum times the multiplier, whatever the stresses are (in float64
    up to the rounding of [v / len(s)] and of the sums). *)
Theorem modulus_zero_total_volume (stress : stress_dict)
    (volume : volume_dict) (symmetry_factor : Q) :
  nonempty stress = true ->
  has_points stress = true ->
  subsetb (keys volume) (keys stress) = true ->
  exists o,
    compute_equivalent_volume stress volume 0 symmetry_factor = Ok o
    /\ v_eqv o == symmetry_factor * total_volume volume.
Proof.
  intros Hne Hp Hsub.
  destruct (compute_ok stress volume 0 symmetry_factor Hne Hp Hsub)
    as (smax & raw & _ & _ & _ & Hsum & Hrun).
  eexists. split; [exact Hrun|]. simpl.
  rewrite Hsum, total_volume_as_map. unfold loop_sum.
  rewrite (Qsum_map_ext _ snd).
  - ring.
  - intros [e v] Hin. simpl.
    assert (He : In (e, stress_of stress e) stress).
    { apply stress_of_In. apply (subsetb_spec (keys volume)); [exact Hsub|].
      apply (in_map fst) in Hin. exact Hin. }
    pose proof (len_pos _ (has_points_In _ _ _ Hp He)) as Hl.
    rewrite v_eqv_e_spec. unfold spec_contribution.
    rewrite (Qsum_map_ext _ (fun _ => v / len (stress_of stress e))).
    + rewrite Qsum_map_const. fold (len (stress_of stress e)).
      field. intros E. rewrite E in Hl. now apply Qlt_irrefl in Hl.
    + intros x _. simpl. ring.
Qed.

Lemma modulus_zero_total_volume_witness :
  exists o,
    compute_equivalent_volume Sample.stress_negative Sample.volume_single 0 8
    = Ok o
    /\ v_eqv o == 8 * total_volume Sample.volume_single.
Proof.
  apply (modulus_zero_total_volume Sample.stress_negative
           Sample.volume_single 8); reflexivity.
Defined.

(** ** The cross section of [build_model]: curves, loops, mesh settings *)

Section CrossSectionTopology.

Lemma curve_range (i : Z) :
  (1 <= i <= 15)%Z <-> In i (map Z.of_nat (seq 1 15)).
Proof.
  rewrite in_map_iff. split.
  - intros H. exists (Z.to_nat i). split; [lia|]. apply in_seq. lia.
  - intros (n & <- & Hn). apply in_seq in Hn. lia.
Qed.

(** Every curve loop has four sides and is closed: each side ends at the
    point where the next one starts, the last one where the first one
    starts. *)
Theorem curve_loops_closed (loop : list Z) :
  In loop curve_loops -> length loop = 4%nat /\ closed_loop loop = true.
Proof.
  intros H.
  assert (E : forallb (fun l => Nat.eqb (length l) 4 && closed_loop l)
                curve_loops = true) by reflexivity.
  rewrite forallb_forall in E. specialize (E loop H).
  apply andb_prop in E. destruct E as [E1 E2].
  apply Nat.eqb_eq in E1. auto.
Qed.

Lemma curve_loops_closed_witness :
  length [4; 5; 8; -2]%Z = 4%nat /\ closed_loop [4; 5; 8; -2]%Z = true.
Proof.
  apply (curve_loops_closed [4; 5; 8; -2]%Z). simpl. auto.
Defined.

(** Every one of the fifteen curves bounds a surface, and no curve is run
    twice in the same direction: a curve shared by two loops is run forwards
    by one and backwards by the other. *)
Theorem curve_loops_oriented :
  NoDup (concat curve_loops)
  /\ forall i, (1 <= i <= 15)%Z ->
       In i (concat curve_loops) \/ In (- i)%Z (concat curve_loops).
Proof.
  split.
  - apply nodupb_NoDup. reflexivity.
  - intros i Hi. apply curve_range in Hi.
    assert (E : forallb (fun i => mem i (concat curve_loops)
                                  || mem (- i)%Z (concat curve_loops))
                  (map Z.of_nat (seq 1 15)) = true) by reflexivity.
    rewrite forallb_forall in E. specialize (E i Hi).
    apply orb_prop in E. destruct E as [E|E]; apply mem_In in E; auto.
Qed.

(** Every curve gets its number of nodes set exactly once, and on every
    surface opposite sides carry the same number of nodes and gradings that
    mirror each other. *)
Theorem mapped_mesh_consistent :
  (forall i, (1 <= i <= 15)%Z -> length (settings_of i) = 1%nat)
  /\ (forall loop, In loop curve_loops -> mapped_mesh_ok loop = true).
Proof.
  split.
  - intros i Hi. apply curve_range in Hi.
    assert (E : forallb (fun i => Nat.eqb (length (settings_of i)) 1)
                  (map Z.of_nat (seq 1 15)) = true) by reflexivity.
    rewrite forallb_forall in E. apply Nat.eqb_eq. now apply E.
  - intros loop H.
    assert (E : forallb mapped_mesh_ok curve_loops = true) by reflexivity.
    rewrite forallb_forall in E. now apply E.
Qed.

End CrossSectionTopology.

(** ** The cross section of [build_model]: lengths and points *)

Section CrossSectionGeometry.

Local Open Scope R_scope.

Variables l_n d_n d_k r_k : R.

Lemma on_circle (cx r a : R) :
  dist2 (cx - r * cos a, r * sin a, 0) (cx, 0, 0) = r ^ 2.
Proof.
  unfold dist2, px, py, pz. simpl.
  pose proof (sin2_cos2 a) as H. unfold Rsqr in H.
  replace ((cx - r * cos a - cx) * ((cx - r * cos a - cx) * 1)
           + (r * sin a - 0) * ((r * sin a - 0) * 1)
           + (0 - 0) * ((0 - 0) * 1))
    with (r * r * (sin a * sin a + cos a * cos a)) by ring.
  rewrite H. ring.
Qed.

Lemma on_circle_axis (cx r : R) :
  dist2 (cx - r, 0, 0) (cx, 0, 0) = r ^ 2.
Proof. unfold dist2, px, py, pz. simpl. ring. Qed.

(** Points 3, 4, 5 lie on the circle of radius [r_1] about point 1, and
    points 6, 7, 8 on the circle of radius [r_k], the notch radius. *)
Lemma arc_points_radii :
  let p := pnt l_n d_n d_k r_k in
  dist2 (p 3%nat) (p 1%nat) = r_1 d_k r_k ^ 2
  /\ dist2 (p 4%nat) (p 1%nat) = r_1 d_k r_k ^ 2
  /\ dist2 (p 5%nat) (p 1%nat) = r_1 d_k r_k ^ 2
  /\ dist2 (p 6%nat) (p 1%nat) = r_k ^ 2
  /\ dist2 (p 7%nat) (p 1%nat) = r_k ^ 2
  /\ dist2 (p 8%nat) (p 1%nat) = r_k ^ 2.
Proof.
  cbv [pnt pnts nth Nat.sub]. cbv zeta.
  repeat split; first [apply on_circle | apply on_circle_axis].
Qed.

(** For the points of [pnts], start and end of every arc are equally far
    from its centre. *)
Lemma arc_ends_equidistant (c : curve) :
  In c curves -> arc_ok l_n d_n d_k r_k c.
Proof.
  destruct arc_points_radii as (H3 & H4 & H5 & H6 & H7 & H8).
  unfold curves. simpl.
  intros H. repeat (destruct H as [<-|H]); try exact I; try destruct H;
    unfold arc_ok; congruence.
Qed.

Lemma div_in_unit (a b : R) :
  0 < b -> (-1 <= a / b <= 1 <-> - b <= a <= b).
Proof.
  intros Hb.
  assert (E : a = a / b * b) by (field; lra).
  revert E. generalize (a / b). intros q E. subst a.
  split; intros [H1 H2]; split; nra.
Qed.

(** The argument [t_k / r_k] of the first [arccos] lies in [[-1, 1]] exactly
    when [d_k <= d_n <= d_k + 4 r_k]; the argument [t_k / r_1] of the second
    one then lies in [[-1, 1]] as well. *)
Lemma arccos_domain :
  0 < r_k -> 0 <= d_k ->
  (-1 <= t_k d_n d_k r_k / r_k <= 1 <-> d_k <= d_n <= d_k + 4 * r_k)
  /\ (-1 <= t_k d_n d_k r_k / r_k <= 1 ->
      -1 <= t_k d_n d_k r_k / r_1 d_k r_k <= 1).
Proof.
  intros Hr Hd.
  assert (Hr1 : 0 < r_1 d_k r_k) by (unfold r_1, r_0; lra).
  rewrite (div_in_unit _ _ Hr), (div_in_unit _ _ Hr1).
  unfold t_k, r_1, r_0. split; [split|]; lra.
Qed.

(** The cross section has the dimensions the docstring names: the notch
    root (point 6) sits on the plane [y = 0] at the radius [d_k / 2], the
    notch arc (points 6, 7, 8) has the radius [r_k], the notch ends (point
    8) at the nominal radius [d_n / 2], where points 5 and 12 sit too, and
    the end face (points 11, 12) is at [y = l_n / 2]. *)
Theorem documented_dimensions :
  0 < r_k -> 0 <= d_k -> d_k <= d_n <= d_k + 4 * r_k ->
  let p := pnt l_n d_n d_k r_k in
  p 6%nat = (d_k / 2, 0, 0)
  /\ dist2 (p 6%nat) (p 1%nat) = r_k ^ 2
  /\ dist2 (p 7%nat) (p 1%nat) = r_k ^ 2
  /\ dist2 (p 8%nat) (p 1%nat) = r_k ^ 2
  /\ px (p 8%nat) = d_n / 2
  /\ px (p 5%nat) = d_n / 2
  /\ p 11%nat = (0, l_n / 2, 0)
  /\ p 12%nat = (d_n / 2, l_n / 2, 0).
Proof.
  intros Hr Hd Hdn p.
  destruct (arccos_domain Hr Hd) as [Hiff H2].
  pose proof (proj2 Hiff Hdn) as H1. specialize (H2 H1).
  assert (Hr1 : 0 < r_1 d_k r_k) by (unfold r_1, r_0; lra).
  destruct arc_points_radii as (_ & _ & _ & H6 & H7 & H8).
  split; [|split; [exact H6|split; [exact H7|split; [exact H8|]]]].
  - unfold p. cbv [pnt pnts nth Nat.sub]. cbv zeta.
    f_equal. f_equal. unfold r_0. field.
  - unfold p. cbv [pnt pnts nth Nat.sub px fst]. cbv zeta.
    split; [|split; [|split; reflexivity]].
    + unfold ang. rewrite (cos_acos _ H1). unfold t_k, r_0. field. lra.
    + unfold ang_2. rewrite (cos_acos _ H2). unfold t_k, r_0. field.
      unfold r_1, r_0 in *. lra.
Qed.

Lemma in_arccos_domain_spec (x : R) :
  in_arccos_domain x = true <-> -1 <= x <= 1.
Proof.
  unfold in_arccos_domain.
  destruct (Rle_dec (-1) x), (Rle_dec x 1); split; intros H;
    try discriminate; try reflexivity; lra.
Qed.

Lemma build_points_zero_division :
  r_k = 0 \/ r_1 d_k r_k = 0 ->
  build_points l_n d_n d_k r_k = ZeroDivisionError.
Proof.
  intros H. unfold build_points.
  destruct (Req_dec_T r_k 0); [reflexivity|].
  destruct (Req_dec_T (r_1 d_k r_k) 0); [reflexivity|]. tauto.
Qed.

Lemma build_points_built :
  0 < r_k -> 0 <= d_k -> d_k <= d_n <= d_k + 4 * r_k ->
  build_points l_n d_n d_k r_k = Built (pnts l_n d_n d_k r_k).
Proof.
  intros Hr Hd Hdn. unfold build_points.
  destruct (arccos_domain Hr Hd) as [Hiff H2].
  pose proof (proj2 Hiff Hdn) as H1. specialize (H2 H1).
  destruct (Req_dec_T r_k 0); [lra|].
  destruct (Req_dec_T (r_1 d_k r_k) 0) as [E|_];
    [unfold r_1, r_0 in E; lra|].
  rewrite (proj2 (in_arccos_domain_spec _) H1).
  now rewrite (proj2 (in_arccos_domain_spec _) H2).
Qed.

Lemma build_points_nan :
  0 < r_k -> 0 <= d_k -> ~ (d_k <= d_n <= d_k + 4 * r_k) ->
  build_points l_n d_n d_k r_k = NanPoints.
Proof.
  intros Hr Hd Hdn. unfold build_points.
  destruct (arccos_domain Hr Hd) as [Hiff _].
  destruct (Req_dec_T r_k 0); [lra|].
  destruct (Req_dec_T (r_1 d_k r_k) 0) as [E|_];
    [unfold r_1, r_0 in E; lra|].
  destruct (in_arccos_domain (t_k d_n d_k r_k / r_k)) eqn:E; [|reflexivity].
  exfalso. apply Hdn, Hiff. now apply in_arccos_domain_spec.
Qed.

Lemma build_points_inv (pts : list point) :
  build_points l_n d_n d_k r_k = Built pts -> pts = pnts l_n d_n d_k r_k.
Proof.
  unfold build_points.
  destruct (Req_dec_T r_k 0); [discriminate|].
  destruct (Req_dec_T (r_1 d_k r_k) 0); [discriminate|].
  destruct (_ && _); [|discriminate]. now intros [= <-].
Qed.

(** How [build_model] fares with its lengths, in real-number arithmetic.  A
    zero [r_k] or a zero [r_1] ends it with [ZeroDivisionError].  For
    [r_k > 0] and [d_k >= 0] the twelve points are all numbers exactly when
    [d_k <= d_n <= d_k + 4 r_k]; otherwise an [arccos] argument leaves
    [[-1, 1]] and nan coordinates are handed to gmsh, without any
    exception. *)
Theorem build_model_error_cases :
  (r_k = 0 \/ r_1 d_k r_k = 0 ->
   build_points l_n d_n d_k r_k = ZeroDivisionError)
  /\ (0 < r_k -> 0 <= d_k ->
      (d_k <= d_n <= d_k + 4 * r_k ->
       build_points l_n d_n d_k r_k = Built (pnts l_n d_n d_k r_k))
      /\ (~ (d_k <= d_n <= d_k + 4 * r_k) ->
          build_points l_n d_n d_k r_k = NanPoints)).
Proof.
  split; [exact build_points_zero_division|].
  intros Hr Hd. split.
  - now apply build_points_built.
  - now apply build_points_nan.
Qed.

(** Whenever [build_model] gets as far as handing points to gmsh that are
    all numbers (no [ZeroDivisionError], no nan), start and end of each of
    the four circle arcs are, in real-number arithmetic, equally far from
    the arc's centre. *)
Theorem arcs_equidistant (pts : list point) (c : curve) :
  build_points l_n d_n d_k r_k = Built pts ->
  In c curves ->
  arc_true pts c.
Proof.
  intros H Hin. rewrite (build_points_inv _ H).
  exact (arc_ends_equidistant c Hin).
Qed.

End CrossSectionGeometry.

Lemma arcs_equidistant_witness :
  arc_true (pnts 100 14 8 10) (CircleArc 6 1 7).
Proof.
  apply (arcs_equidistant 100 14 8 10 (pnts 100 14 8 10) (CircleArc 6 1 7)).
  - apply build_points_built; lra.
  - unfold curves. simpl. auto 10.
Defined.

Lemma documented_dimensions_witness :
  let p := pnt 100 14 8 10 in
  p 6%nat = (8 / 2, 0, 0)%R
  /\ dist2 (p 6%nat) (p 1%nat) = (10 ^ 2)%R
  /\ dist2 (p 7%nat) (p 1%nat) = (10 ^ 2)%R
  /\ dist2 (p 8%nat) (p 1%nat) = (10 ^ 2)%R
  /\ px (p 8%nat) = (14 / 2)%R
  /\ px (p 5%nat) = (14 / 2)%R
  /\ p 11%nat = (0, 100 / 2, 0)%R
  /\ p 12%nat = (14 / 2, 100 / 2, 0)%R.
Proof.
  apply (documented_dimensions 100 14 8 10); lra.
Defined.

(** ** A single peak *)

Section SinglePeak.

Lemma Qsum_app (l1 l2 : list Q) : Qsum (l1 ++ l2) == Qsum l1 + Qsum l2.
Proof.
  induction l1 as [|x l1 IH]; simpl.
  - ring.
  - rewrite IH. ring.
Qed.

Lemma Qsum_map_zero {A : Type} (f : A -> Q) (l : list A) :
  (forall a, In a l -> f a == 0) -> Qsum (map f l) == 0.
Proof.
  induction l as [|a l IH]; intros H; simpl.
  - reflexivity.
  - rewrite (H a (or_introl eq_refl)), IH; [ring|].
    intros b Hb. apply H. now right.
Qed.

(** A vector of zero stresses contributes nothing when the exponent is
    positive. *)
Lemma v_eqv_e_zero (m : Z) (smax : Q) (s : list Q) (v : Q) :
  (0 < m)%Z -> (forall y, In y s -> y == 0) -> v_eqv_e m smax s v == 0.
Proof.
  intros Hm Hz. rewrite v_eqv_e_spec. unfold spec_contribution.
  apply Qsum_map_zero. intros y Hy. rewrite (Hz y Hy).
  setoid_replace (0 / smax) with 0 by (unfold Qdiv; ring).
  rewrite Qpower_0 by lia. ring.
Qed.

(** A vector whose only non-zero stress is the maximum contributes the
    volume share of that one point. *)
Lemma v_eqv_e_peak (m : Z) (x : Q) (pre post : list Q) (v : Q) :
  (0 < m)%Z -> 0 < x ->
  (forall y, In y (pre ++ post) -> y == 0) ->
  v_eqv_e m x (pre ++ x :: post) v == v / len (pre ++ x :: post).
Proof.
  intros Hm Hx Hz. rewrite v_eqv_e_spec. unfold spec_contribution.
  set (vi := v / len (pre ++ x :: post)).
  assert (Hzero : forall l, (forall y, In y l -> In y (pre ++ post)) ->
                    Qsum (map (fun y => (y / x) ^ m * vi) l) == 0).
  { intros l Hl. apply Qsum_map_zero. intros y Hy.
    rewrite (Hz y (Hl y Hy)).
    setoid_replace (0 / x) with 0 by (unfold Qdiv; ring).
    rewrite Qpower_0 by lia. ring. }
  rewrite map_app, Qsum_app. simpl.
  rewrite (Hzero pre), (Hzero post).
  - setoid_replace (x / x) with 1.
    + rewrite Qpower_1. ring.
    + field. intros E. rewrite E in Hx. now apply Qlt_irrefl in Hx.
  - intros y Hy. apply in_or_app. now right.
  - intros y Hy. apply in_or_app. now left.
Qed.

End SinglePeak.

(** If a single integration point carries a positive stress and every other
    stress value of the whole input is zero, then (for a positive exponent)
    the maximum is that stress and the raw value is the volume share
    [V_e / n_e] of that one point. *)
Theorem single_peak_volume_share (stress : stress_dict) (volume : volume_dict)
    (m : Z) (e : eid) (pre post : list Q) (x : Q) :
  valid_input stress volume = true ->
  (0 < m)%Z ->
  In (e, pre ++ x :: post) stress ->
  (forall y, In y (pre ++ post) -> y == 0) ->
  (forall e' s', In (e', s') stress -> e' <> e ->
                 forall y, In y s' -> y == 0) ->
  exists raw v,
    s_mises_max stress = Ok x
    /\ v_eqv_raw m x stress volume = Ok raw
    /\ In (e, v) volume
    /\ raw == v / len (pre ++ x :: post).
Proof.
  intros Hv Hm Hes Hz Hothers.
  destruct (compute_ok stress volume m 1
              (valid_nonempty _ _ Hv) (valid_has_points _ _ Hv)
              (valid_subset _ _ Hv))
    as (smax & raw & Hmax & Hglob & Hraw & Hsum & _).
  pose proof (valid_max_positive _ _ Hv smax Hglob) as Hpos.
  pose proof (valid_dicts _ _ Hv) as Hd. unfold dicts_ok in Hd.
  apply andb_prop in Hd. destruct Hd as [Hds Hdv].
  assert (Hnz : ~ smax == 0).
  { intros E. rewrite E in Hpos. now apply Qlt_irrefl in Hpos. }
  assert (E : smax = x).
  { destruct (proj1 (all_points_In stress smax) (proj1 Hglob))
      as (e' & s' & Hes' & Hin).
    destruct (Z.eq_dec e' e) as [->|Hne].
    - assert (Es : s' = pre ++ x :: post).
      { rewrite <- (stress_of_nodup _ _ _ Hds Hes').
        apply (stress_of_nodup _ _ _ Hds Hes). }
      subst s'. apply in_app_or in Hin. destruct Hin as [Hin|[Hin|Hin]].
      + exfalso. apply Hnz, Hz. apply in_or_app. now left.
      + now symmetry.
      + exfalso. apply Hnz, Hz. apply in_or_app. now right.
    - exfalso. apply Hnz. exact (Hothers e' s' Hes' Hne smax Hin). }
  subst smax.
  assert (Hek : mem e (keys volume) = true).
  { apply mem_In. pose proof (valid_same_keys _ _ Hv) as Hk.
    unfold same_keys in Hk. apply andb_prop in Hk. destruct Hk as [Hk _].
    apply (subsetb_spec (keys stress)); [exact Hk|].
    apply (in_map fst) in Hes. exact Hes. }
  destruct (dict_get_mem _ _ Hek) as (v & _ & Hev).
  exists raw, v. repeat split; try assumption.
  destruct (in_split _ _ Hev) as (l1 & l2 & Hvol).
  assert (Hrest : forall e' v', In (e', v') (l1 ++ l2) ->
            v_eqv_e m x (stress_of stress e') v' == 0).
  { intros e' v' Hin'.
    assert (Hin_vol : In (e', v') volume).
    { rewrite Hvol. apply in_app_or in Hin'. apply in_or_app.
      destruct Hin' as [H|H]; [now left | right; now right]. }
    assert (Hne : e' <> e).
    { intros ->. apply nodupb_NoDup in Hdv. unfold keys in Hdv.
      rewrite Hvol, map_app in Hdv. simpl in Hdv.
      apply NoDup_remove_2 in Hdv. apply Hdv. rewrite <- map_app.
      apply (in_map fst) in Hin'. exact Hin'. }
    apply v_eqv_e_zero; [exact Hm|].
    apply (Hothers e' (stress_of stress e')); [|exact Hne].
    apply stress_of_In. apply (subsetb_spec (keys volume));
      [exact (valid_subset _ _ Hv)|].
    apply (in_map fst) in Hin_vol. exact Hin_vol. }
  rewrite Hsum. unfold loop_sum. rewrite Hvol, map_app, Qsum_app. simpl.
  rewrite (stress_of_nodup _ _ _ Hds Hes).
  rewrite (v_eqv_e_peak m x pre post v Hm Hpos Hz).
  rewrite !Qsum_map_zero.
  - ring.
  - intros [e' v'] Hin'. simpl. apply Hrest. apply in_or_app. now right.
  - intros [e' v'] Hin'. simpl. apply Hrest. apply in_or_app. now left.
Qed.

Lemma single_peak_volume_share_witness :
  exists raw v,
    s_mises_max DictSample.stress_peak = Ok 5
    /\ v_eqv_raw 30 5 DictSample.stress_peak DictSample.volume_peak = Ok raw
    /\ In (Sample.elem_A, v) DictSample.volume_peak
    /\ raw == v / len ([0; 0] ++ 5 :: []).
Proof.
  apply (single_peak_volume_share DictSample.stress_peak
           DictSample.volume_peak 30 Sample.elem_A [0; 0] [] 5).
  - reflexivity.
  - lia.
  - simpl. auto.
  - intros y [<-|[<-|[]]]; reflexivity.
  - intros e' s' [[= <- <-]|[[= <- <-]|[]]] Hne y Hy.
    + now contradiction Hne.
    + destruct Hy as [<-|[<-|[]]]; reflexivity.
Defined.

(** ** The cross section of [build_model]: order of the points *)

Section CrossSectionOrder.

Local Open Scope R_scope.

Lemma sin_half_sq (a : R) : sin (a / 2) * sin (a / 2) = (1 - cos a) / 2.
Proof.
  pose proof (cos_2a_sin (a / 2)) as H.
  replace (2 * (a / 2)) with a in H by field. lra.
Qed.

Lemma sin_sq (a : R) : sin a * sin a = 1 - cos a * cos a.
Proof. pose proof (sin2_cos2 a) as H. unfold Rsqr in H. lra. Qed.

Lemma lt_of_squares (a b : R) : 0 <= a -> 0 <= b -> a * a < b * b -> a < b.
Proof. intros. nra. Qed.

Lemma sin_acos_nonneg (x : R) : 0 <= sin (acos x).
Proof. destruct (acos_bound x). now apply sin_ge_0. Qed.

Variables l_n d_n d_k r_k : R.

Let tk := t_k d_n d_k r_k.
Let r1 := r_1 d_k r_k.
Let y4 := r1 * sin (ang d_n d_k r_k / 2).
Let y5 := r1 * sin (ang_2 d_n d_k r_k).
Let y8 := r_k * sin (ang d_n d_k r_k).

(** The heights of points 4, 5 and 8, squared, without trigonometry. *)
Lemma heights_squared :
  0 < r_k -> 0 <= d_k -> -1 < tk / r_k < 1 -> -1 <= tk / r1 <= 1 ->
  0 < y4 /\ 0 <= y5 /\ 0 <= y8
  /\ y4 * y4 = r1 * r1 * ((1 - tk / r_k) / 2)
  /\ y5 * y5 = r1 * r1 - tk * tk
  /\ y8 * y8 = r_k * r_k - tk * tk.
Proof.
  intros Hr Hd Hu Hw.
  assert (Hr1 : 0 < r1) by (unfold r1, r_1, r_0; lra).
  assert (Hang : 0 < ang d_n d_k r_k < PI) by (apply acos_bound_lt, Hu).
  assert (Hs4 : 0 < sin (ang d_n d_k r_k / 2)) by (apply sin_gt_0; lra).
  pose proof (sin_acos_nonneg (tk / r1)) as Hs5.
  pose proof (sin_acos_nonneg (tk / r_k)) as Hs8.
  assert (Hc : cos (ang d_n d_k r_k) = tk / r_k).
  { apply cos_acos. lra. }
  assert (Hc2 : cos (ang_2 d_n d_k r_k) = tk / r1).
  { apply cos_acos. exact Hw. }
  split; [|split; [|split; [|split; [|split]]]].
  - unfold y4. now apply Rmult_lt_0_compat.
  - unfold y5. apply Rmult_le_pos; [lra | exact Hs5].
  - unfold y8. apply Rmult_le_pos; [lra | exact Hs8].
  - unfold y4.
    replace (r1 * sin (ang d_n d_k r_k / 2)
             * (r1 * sin (ang d_n d_k r_k / 2)))
      with (r1 * r1 * (sin (ang d_n d_k r_k / 2)
                       * sin (ang d_n d_k r_k / 2))) by ring.
    now rewrite sin_half_sq, Hc.
  - unfold y5.
    replace (r1 * sin (ang_2 d_n d_k r_k) * (r1 * sin (ang_2 d_n d_k r_k)))
      with (r1 * r1 * (sin (ang_2 d_n d_k r_k) * sin (ang_2 d_n d_k r_k)))
      by ring.
    rewrite sin_sq, Hc2. field. lra.
  - unfold y8.
    replace (r_k * sin (ang d_n d_k r_k) * (r_k * sin (ang d_n d_k r_k)))
      with (r_k * r_k * (sin (ang d_n d_k r_k) * sin (ang d_n d_k r_k)))
      by ring.
    rewrite sin_sq, Hc. field. lra.
Qed.

(** In real-number arithmetic: when the notch is not deeper than its radius
    ([d_k < d_n <= d_k + 2 r_k]) and the end face lies beyond the notch
    region, the points on the axis
    come in the order 2, 9, 10, 11 (heights [0 < y9 < y10 < l_n / 2]), and
    on the outer side point 5 lies above point 8 and below point 12: none of
    the straight lines along the axis and the outer side is degenerate or
    reversed. *)
Theorem axis_points_ordered :
  0 < d_k -> d_k < d_n -> d_n <= d_k + 2 * r_k -> 0 < l_n ->
  r_1 d_k r_k ^ 2 - t_k d_n d_k r_k ^ 2 < (l_n / 2) ^ 2 ->
  let p := pnt l_n d_n d_k r_k in
  py (p 2%nat) = 0
  /\ 0 < py (p 9%nat)
  /\ py (p 9%nat) < py (p 10%nat)
  /\ py (p 10%nat) < py (p 11%nat)
  /\ py (p 8%nat) < py (p 5%nat)
  /\ py (p 5%nat) < py (p 12%nat).
Proof.
  intros Hdk Hdn Hdepth Hl Hend p.
  assert (Hr : 0 < r_k) by lra.
  assert (Hr1 : r_k < r1) by (unfold r1, r_1, r_0; lra).
  assert (Ht : 0 <= tk < r_k) by (unfold tk, t_k; lra).
  assert (Eu : tk = tk / r_k * r_k) by (field; lra).
  assert (Ew : tk = tk / r1 * r1) by (field; lra).
  assert (Hu : 0 <= tk / r_k < 1).
  { revert Eu. generalize (tk / r_k). intros u Eu. split; nra. }
  assert (Hw : 0 <= tk / r1 < 1).
  { revert Ew. generalize (tk / r1). intros w Ew. split; nra. }
  destruct heights_squared as (H4 & H5 & H8 & S4 & S5 & S8);
    [lra | lra | lra | lra |].
  assert (H45 : y4 < y5).
  { apply lt_of_squares; [lra | exact H5 |]. rewrite S4, S5.
    revert Eu Hu. generalize (tk / r_k). intros u Eu Hu.
    assert (u * u <= u) by nra.
    assert (r_k * r_k < r1 * r1) by nra.
    assert (0 <= u * u) by nra.
    rewrite Eu. nra. }
  assert (H85 : y8 < y5).
  { apply lt_of_squares; [exact H8 | exact H5 |]. rewrite S8, S5. nra. }
  assert (H5l : y5 < l_n / 2).
  { apply lt_of_squares; [exact H5 | lra |]. rewrite S5.
    fold tk r1 in Hend. simpl in Hend. lra. }
  unfold p. cbv [pnt pnts nth Nat.sub py fst snd]. cbv zeta.
  fold r1 y4 y5 y8. repeat split; try assumption; try reflexivity.
Qed.

(** In real-number arithmetic the order is lost for a deep notch: as soon
    as [r_1^2 (1 + t_k / r_k) / 2 < t_k^2], point 10 lies below point 9 on
    the axis, so that the line from 10 to 9 and the surfaces built on it are
    turned over. *)
Theorem deep_notch_reverses_axis_points :
  0 < r_k -> 0 <= d_k ->
  -1 < t_k d_n d_k r_k / r_k < 1 ->
  r_1 d_k r_k ^ 2 * ((1 + t_k d_n d_k r_k / r_k) / 2)
  < t_k d_n d_k r_k ^ 2 ->
  let p := pnt l_n d_n d_k r_k in
  py (p 10%nat) < py (p 9%nat).
Proof.
  intros Hr Hd Hu Hdeep p.
  assert (Hw : -1 <= tk / r1 <= 1).
  { apply (arccos_domain d_n d_k r_k Hr Hd). lra. }
  destruct heights_squared as (H4 & H5 & H8 & S4 & S5 & S8);
    [lra | lra | exact Hu | exact Hw |].
  unfold p. cbv [pnt pnts nth Nat.sub py fst snd]. cbv zeta.
  fold r1 y4 y5.
  apply lt_of_squares; [exact H5 | lra |]. rewrite S4, S5.
  fold tk r1 in Hdeep. simpl in Hdeep. lra.
Qed.

End CrossSectionOrder.

Lemma axis_points_ordered_witness :
  let p := pnt 100 14 8 10 in
  py (p 2%nat) = 0%R
  /\ (0 < py (p 9%nat))%R
  /\ (py (p 9%nat) < py (p 10%nat))%R
  /\ (py (p 10%nat) < py (p 11%nat))%R
  /\ (py (p 8%nat) < py (p 5%nat))%R
  /\ (py (p 5%nat) < py (p 12%nat))%R.
Proof.
  apply (axis_points_ordered 100 14 8 10); unfold r_1, r_0, t_k; lra.
Defined.

Lemma deep_notch_reverses_axis_points_witness :
  let p := pnt 100 36 4 10 in
  (py (p 10%nat) < py (p 9%nat))%R.
Proof.
  apply (deep_notch_reverses_axis_points 100 36 4 10);
    unfold r_1, r_0, t_k; lra.
Defined.

(** ** The two post-processing cells in float64: where rounding decides *)

Section Float64Runs.

#[local] Set Warnings "-inexact-float".

(** The float64 cells give the worked example exactly. *)
Example float_worked_example :
  F64.compute_equivalent_volume
    [(1%Z, [10; 20]); (2%Z, [20])]%float [(1%Z, 4); (2%Z, 3)]%float 1 8
  = Ok (F64.mkOutcome 48 20).
Proof. vm_compute. reflexivity. Qed.

(** C5 as stated fails in float64: one element of volume 7.80575484347077
    with three integration points under the same stress is a valid input;
    each point gets the rounded share [v / 3], and the three shares add up
    to 7.805754843470771, which is more than the sum of the volumes. *)
Lemma float_raw_exceeds_volume :
  exists raw,
    F64.valid_input F64Sample.stress_equal F64Sample.volume_one = true
    /\ F64.s_mises_max F64Sample.stress_equal = Ok 2.5%float
    /\ F64.v_eqv_raw 30 2.5 F64Sample.stress_equal F64Sample.volume_one
       = Ok raw
    /\ raw = 7.805754843470771%float
    /\ F64.total_volume F64Sample.volume_one = 7.80575484347077%float
    /\ PrimFloat.leb raw (F64.total_volume F64Sample.volume_one) = false.
Proof.
  eexists. split; [vm_compute; reflexivity|].
  split; [vm_compute; reflexivity|].
  split; [vm_compute; reflexivity|].
  repeat split; vm_compute; reflexivity.
Qed.

(** The same input in the setting of C7: all stresses are equal, and yet the
    float64 [v_eqv] is not the multiplier times the volume sum. *)
Example float_uniform_stress_rounds :
  exists o,
    F64.compute_equivalent_volume F64Sample.stress_equal F64Sample.volume_one
      30 8 = Ok o
    /\ F64.v_eqv o = 62.44603874776617%float
    /\ (8 * F64.total_volume F64Sample.volume_one)%float
       = 62.44603874776616%float
    /\ PrimFloat.eqb (F64.v_eqv o)
         (8 * F64.total_volume F64Sample.volume_one)%float = false.
Proof.
  eexists. split; [vm_compute; reflexivity|].
  repeat split; vm_compute; reflexivity.
Qed.


(** An everyday factor changes the last digit as well: the stresses 133.978
    and 152.14 with the volume 4.272, multiplied by 7. *)
Example float_scaling_last_digit :
  exists o o',
    F64.compute_equivalent_volume F64Sample.stress_plain
      F64Sample.volume_plain 30 8 = Ok o
    /\ F64.compute_equivalent_volume
         (F64.scale_stress 7 F64Sample.stress_plain)
         F64Sample.volume_plain 30 8 = Ok o'
    /\ F64.v_eqv o = 17.465045351403223%float
    /\ F64.v_eqv o' = 17.46504535140322%float
    /\ PrimFloat.eqb (F64.v_eqv o') (F64.v_eqv o) = false.
Proof.
  eexists. eexists. split; [vm_compute; reflexivity|].
  split; [vm_compute; reflexivity|].
  repeat split; vm_compute; reflexivity.
Qed.

End Float64Runs.
